(** * go-thex: the streaming THEX hash-tree engine of thex.go

    A shallow embedding of [tree.Write], [tree.Reset], [tree.Sum] and
    [tree.processLevel] of thex.go, and the properties of the leaf framer
    and of the combine pipeline proved on it.  The [Write] of the earlier
    package tree/tree.go is embedded next to it ([TreeGo.Write]).

    Modelling conventions.
    - A Go [[]byte] is a [slice]: [None] is the nil slice, [Some l] a non-nil
      slice holding [l].  Slices are modelled by their contents: a caller
      does not overwrite a buffer it has handed to [Write].  The code
      itself can: [Write] keeps windows on the caller's arrays and
      completes a pending record with [append], in place when the capacity
      allows.  The module [Heap] has the code over a memory of arrays; the
      properties of split records that do not hold there
      ([split_write_overwrites_leaf]) are stated here for [Write] calls
      that end on leaf boundaries, where no record is ever pending.
    - Go's [int] is [Z]; every index the code computes lies between
      [-len(overflow)] and [len(p) + 2*size].
    - The underlying [hash.Hash] is an interface, here the class [HashAlg]:
      the digest object is the list of the bytes written since its last
      [Reset], and [hsum] maps them to the digest.
    - A level goroutine is the program point it is blocked at together with
      its live locals ([level]); the channel [egress] is identified with the
      level that reads it.  Channels are unbuffered rendezvous and every
      combine step holds [mu] from [Reset] to [Sum], so the values on every
      channel do not depend on the schedule; a send is modelled by running
      the receiver up to its next receive.
    - A value sent on [final] waits in [sum] for [Sum] to take it.  With an
      algorithm that keeps the contract of hash.Hash ([HashOk]) a level
      sends on [final] only while [Sum] is waiting ([send_leaf_ready],
      [Sum_ready]). *)

From Stdlib Require Import List ZArith Lia Bool.
From Stdlib.Strings Require Import Byte.
Import ListNotations.
Local Open Scope Z_scope.

(** ** Results of fallible and blocking code *)

Inductive outcome (A : Type) : Type :=
| Ret (a : A)      (* the call returns *)
| Panic            (* a run-time panic: slice bounds, make with a negative cap *)
| Blocks           (* the call blocks for ever on a channel *)
| OutOfFuel.       (* the model's loop counter was too small *)

Arguments Ret {A} a.
Arguments Panic {A}.
Arguments Blocks {A}.
Arguments OutOfFuel {A}.

Definition bind {A B : Type} (m : outcome A) (k : A -> outcome B) : outcome B :=
  match m with
  | Ret a => k a
  | Panic => Panic
  | Blocks => Blocks
  | OutOfFuel => OutOfFuel
  end.

Definition omap {A B : Type} (f : A -> B) (m : outcome A) : outcome B :=
  bind m (fun a => Ret (f a)).

Notation "x <- m ;; k" := (bind m (fun x => k))
  (at level 61, m at next level, right associativity).
Notation "' pat <- m ;; k" := (bind m (fun x => match x with pat => k end))
  (at level 61, pat pattern, m at next level, right associativity).

(** ** Go byte slices *)

Definition slice : Type := option (list byte).

Definition bytes_of (s : slice) : list byte :=
  match s with
  | None => []
  | Some l => l
  end.

Definition len (s : slice) : Z := Z.of_nat (length (bytes_of s)).

(** [append(s, t...)]: appending nothing to nil gives nil. *)
Definition append (s t : slice) : slice :=
  match s, bytes_of t with
  | None, [] => None
  | _, ys => Some (bytes_of s ++ ys)
  end.

(** [p[i:j]], for bounds within the length: the code below never slices
    past [len(p)]. *)
Definition reslice (p : slice) (i j : Z) : outcome slice :=
  if (0 <=? i) && (i <=? j) && (j <=? len p) then
    match p with
    | None => Ret None
    | Some l => Ret (Some (firstn (Z.to_nat (j - i)) (skipn (Z.to_nat i) l)))
    end
  else Panic.

(** [make([]byte, 0, c)] *)
Definition make0 (c : Z) : outcome slice :=
  if 0 <=? c then Ret (Some []) else Panic.

Definition is_nil (s : slice) : bool :=
  match s with
  | None => true
  | Some _ => false
  end.

(** ** The underlying hash algorithm (the interface hash.Hash) *)

Class HashAlg : Type := {
  hsum : list byte -> list byte;   (* digest of the bytes written since Reset *)
  hsize : Z                        (* Size() *)
}.

(** The collaborator contract: [Sum] yields [Size()] bytes. *)
Class HashOk (H : HashAlg) : Prop :=
  hsum_width : forall d, Z.of_nat (length (hsum d)) = hsize.

(** The state of the digest object: the bytes written since [Reset]. *)
Definition hash_state : Type := list byte.

Definition digest_Reset (d : hash_state) : hash_state := [].
Definition digest_Write (d : hash_state) (p : slice) : hash_state := d ++ bytes_of p.
Definition digest_Sum `{HashAlg} (d : hash_state) (b : slice) : slice :=
  append b (Some (hsum d)).

(** ** thex.go *)

Definition innerPrefix : slice := Some [x01].

(** The state of one [processLevel] goroutine. *)
Inductive level : Type :=
| AwaitFirst                                  (* at [left = <-ingress] *)
| First (left : slice)                        (* at the first [range ingress] *)
| Pairing (egress : level)                    (* at the second [range ingress] *)
| PairingRight (left : slice) (egress : level). (* at [right := <-ingress] *)

(** The struct [tree].  The field [mu] has no state of its own: it makes
    the combine step atomic ([combine] below). *)
Record tree : Type := mkTree {
  digest : hash_state;
  size : Z;
  overflow : slice;
  leaves : level;          (* the goroutine reading the channel [leaves] *)
  sum : list slice         (* values offered on the channel [sum] *)
}.

Section Thex.
Context {H : HashAlg}.

(** The locked block of [processLevel]: Reset, three Writes, Sum(nil). *)
Definition combine (d : hash_state) (left right : slice) : slice * hash_state :=
  let d := digest_Reset d in
  let d := digest_Write d innerPrefix in
  let d := digest_Write d left in
  let d := digest_Write d right in
  (digest_Sum d None, d).

(** A level goroutine takes its first value, [left = <-ingress], and then
    [k] end-of-stream markers in its first loop: [final <- left] for each. *)
Definition fresh (v : slice) (k : nat) (d : hash_state)
  : level * hash_state * list slice :=
  (First v, d, repeat v k).

(** [processLevel lv v k d]: the level [lv] receives on its ingress the
    value [v] and then [k] times nil, and runs to its next receive.  The
    result is the level, the digest object and the values that this level
    and the levels above it sent on [final], in order.

    The level below hands over a value, nil, or (an unpaired left) a value
    and then nil; [k] counts the nils that follow [v], so that the two
    sends [egress <- left; egress <- nil] are one structural call.  With
    [k = 0] this is one receive ([recv] below); [processLevel_nils] shows
    that the nils are received one after the other. *)
Fixpoint processLevel (lv : level) (v : slice) (k : nat) (d : hash_state)
  : level * hash_state * list slice :=
  match lv with
  | AwaitFirst => fresh v k d
  | First l =>
      if is_nil v then
        (* right == nil: final <- left, for this nil and the k after it *)
        (First l, d, repeat l (S k))
      else
        (* egress = make(...); go t.processLevel(egress, final);
           egress <- sum; break.  The k nils are then forwarded by the
           second loop to the new level. *)
        let '(s, d) := combine d l v in
        let '(e, d, f) := fresh s k d in
        (Pairing e, d, f)
  | Pairing egress =>
      if is_nil v then
        (* left == nil: egress <- nil, k + 1 times *)
        let '(e, d, f) := processLevel egress None k d in
        (Pairing e, d, f)
      else
        match k with
        | O => (PairingRight v egress, d, [])
        | S _ =>
            (* right == nil: egress <- left; egress <- nil; the other
               k - 1 nils are forwarded *)
            let '(e, d, f) := processLevel egress v k d in
            (Pairing e, d, f)
        end
  | PairingRight l egress =>
      if is_nil v then
        (* right == nil: egress <- left; egress <- nil; then k nils *)
        let '(e, d, f) := processLevel egress l (S k) d in
        (Pairing e, d, f)
      else
        (* egress <- sum; then k nils *)
        let '(s, d) := combine d l v in
        let '(e, d, f) := processLevel egress s k d in
        (Pairing e, d, f)
  end.

(** One receive of a level. *)
Definition recv (lv : level) (v : slice) (d : hash_state)
  : level * hash_state * list slice :=
  processLevel lv v 0 d.

(** [t.leaves <- v] *)
Definition send_leaf (t : tree) (v : slice) : tree :=
  let '(lv, d, f) := recv (leaves t) v (digest t) in
  mkTree d (size t) (overflow t) lv (sum t ++ f).

Definition set_overflow (t : tree) (o : slice) : tree :=
  mkTree (digest t) (size t) o (leaves t) (sum t).

(** The first part of [Write]: fill up overflow from the last Write.
    Returns the tree and [i]. *)
Definition fill_overflow (t : tree) (p : slice) : outcome (tree * Z) :=
  let n := len p in
  if 0 <? len (overflow t) then
    let i := size t - len (overflow t) in
    if i >? n then
      x <- reslice p 0 n ;;
      Ret (set_overflow t (append (overflow t) x), i)
    else
      x <- reslice p 0 i ;;
      Ret (set_overflow (send_leaf t (append (overflow t) x)) None, i)
  else Ret (t, 0).

(** The loop [for j <= n]. Returns the tree and [i]. *)
Fixpoint emit_loop (fuel : nat) (t : tree) (p : slice) (i j : Z)
  : outcome (tree * Z) :=
  if j <=? len p then
    match fuel with
    | O => OutOfFuel
    | S fuel =>
        x <- reslice p i j ;;
        emit_loop fuel (send_leaf t x) p j (j + size t)
    end
  else Ret (t, i).

(** The last part of [Write]: keep the partial record. *)
Definition keep_rest (t : tree) (p : slice) (i : Z) : outcome tree :=
  if i <? len p then
    x <- reslice p i (len p) ;;
    Ret (set_overflow t x)
  else Ret t.

(** Go's [error]: [None] is nil. *)
Definition error : Type := option unit.

Definition Write (t : tree) (p : slice) : outcome (tree * (Z * error)) :=
  let n := len p in
  '(t, i) <- fill_overflow t p ;;
  '(t, i) <- emit_loop (S (length (bytes_of p))) t p i (i + size t) ;;
  t <- keep_rest t p i ;;
  Ret (t, (n, None)).

Definition Reset (t : tree) : outcome tree :=
  o <- make0 (size t - 1) ;;
  Ret (mkTree (digest t) (size t) o AwaitFirst []).

(** [New(digest)]; [d] is what the caller has written to [digest] so far. *)
Definition New (d : hash_state) : outcome tree :=
  Reset (mkTree d hsize None AwaitFirst []).

(** [Sum(b)]: [t.leaves <- nil; return <-t.sum]. *)
Definition Sum (t : tree) (b : slice) : outcome (tree * slice) :=
  let t := send_leaf t None in
  match sum t with
  | [] => Blocks
  | r :: rest => Ret (mkTree (digest t) (size t) (overflow t) (leaves t) rest, r)
  end.

Definition BlockSize (t : tree) : Z := size t.
Definition Size (t : tree) : Z := size t.

End Thex.

(** ** tree/tree.go, the earlier revisions of the package

    [processLevel], [Reset] and [Sum] are those of thex.go without the
    mutex.  [Write] differs: it declares a second [i] inside the [if]
    ([i := t.size - len(t.overflow)]), so that the [i] of the loop is still
    0 after the pending record has been completed, and it has no test for
    an input shorter than what the overflow lacks.  The later revision of
    the file sets the overflow to [make([]byte, 0, t.size-1)] where the
    earlier one sets it to nil.  A slice is taken here with
    [cap(p) = len(p)], so that [p[:i]] past the length panics. *)

Module TreeGo.
Section TreeGo.
Context {H : HashAlg}.

Definition Write (t : tree) (p : slice) : outcome (tree * (Z * error)) :=
  let nn := len p in
  t <- (if 0 <? len (overflow t) then
          let i := size t - len (overflow t) in
          x <- reslice p 0 i ;;
          Ret (set_overflow (send_leaf t (append (overflow t) x)) None)
        else Ret t) ;;
  '(t, i) <- emit_loop (S (length (bytes_of p))) t p 0 (0 + size t) ;;
  t <- keep_rest t p i ;;
  Ret (t, (nn, None)).

End TreeGo.
End TreeGo.

(** ** The same code over a memory of arrays

    A Go slice is a window on an array: the array, an offset, a length and
    a capacity.  [Write] keeps windows on the caller's arrays ([p[i:]] as
    the overflow, [p[i:j]] as the leaves that the levels hold), and
    [append(t.overflow, ...)] writes into the array of the overflow when
    its capacity allows.  The module [Heap] has [Write], [Reset], [Sum],
    [New] and [processLevel] of thex.go, and the [Write] of tree/tree.go,
    with slices as windows on a [memory]; the definitions above have the
    same code with every slice taken by its contents, which is what the
    code does as long as no [append] writes into an array that someone else
    still reads. *)

Module Heap.

(** The arrays, by address. *)
Definition memory : Type := list (list byte).

Record window : Type := mkWindow {
  arr : nat;     (* the address of the array *)
  off : nat;     (* where the window starts in it *)
  wlen : nat;    (* len *)
  wcap : nat     (* cap *)
}.

(** A slice; [None] is nil. *)
Definition view : Type := option window.

Definition vlen (s : view) : Z :=
  match s with
  | None => 0
  | Some w => Z.of_nat (wlen w)
  end.

Definition vcap (s : view) : Z :=
  match s with
  | None => 0
  | Some w => Z.of_nat (wcap w)
  end.

Definition is_nil (s : view) : bool :=
  match s with
  | None => true
  | Some _ => false
  end.

(** The bytes seen through a slice. *)
Definition read (m : memory) (s : view) : list byte :=
  match s with
  | None => []
  | Some w => firstn (wlen w) (skipn (off w) (nth (arr w) m []))
  end.

(** [p[i:j]]: the bounds are checked against the capacity. *)
Definition reslice (p : view) (i j : Z) : outcome view :=
  if (0 <=? i) && (i <=? j) && (j <=? vcap p) then
    Ret (match p with
         | None => None
         | Some w =>
             Some (mkWindow (arr w) (off w + Z.to_nat i) (Z.to_nat (j - i))
                     (wcap w - Z.to_nat i))
         end)
  else Panic.

(** The array [a] with [bs] written from position [pos]. *)
Definition splice (a : list byte) (pos : nat) (bs : list byte) : list byte :=
  firstn pos a ++ bs ++ skipn (pos + length bs) a.

Fixpoint update (m : memory) (n : nat) (f : list byte -> list byte) : memory :=
  match m with
  | [] => []
  | a :: m' =>
      match n with
      | O => f a :: m'
      | S n => a :: update m' n f
      end
  end.

Section Thex.
Context {H : HashAlg}.

(** The spare capacity that the run time gives to the array it allocates
    for [n] bytes in [append]. *)
Variable growth : nat -> nat.

(** A new array holding [bs], [spare] bytes longer, and the slice of [bs]
    in it. *)
Definition alloc (m : memory) (bs : list byte) (spare : nat) : memory * view :=
  (m ++ [bs ++ repeat x00 spare],
   Some (mkWindow (length m) 0 (length bs) (length bs + spare))).

(** [append(s, bs...)], [bs] being read before anything is written: in
    place when the capacity of [s] allows, into a new array otherwise. *)
Definition append (m : memory) (s : view) (bs : list byte) : memory * view :=
  match s with
  | Some w =>
      if (wlen w + length bs <=? wcap w)%nat then
        (update m (arr w) (fun a => splice a (off w + wlen w) bs),
         Some (mkWindow (arr w) (off w) (wlen w + length bs) (wcap w)))
      else alloc m (read m s ++ bs) (growth (wlen w + length bs))
  | None =>
      match bs with
      | [] => (m, None)
      | _ => alloc m bs (growth (length bs))
      end
  end.

(** [make([]byte, 0, c)] *)
Definition make0 (m : memory) (c : Z) : outcome (memory * view) :=
  if 0 <=? c then Ret (alloc m [] (Z.to_nat c)) else Panic.

Inductive level : Type :=
| AwaitFirst
| First (left : view)
| Pairing (egress : level)
| PairingRight (left : view) (egress : level).

Record tree : Type := mkTree {
  digest : hash_state;
  size : Z;
  overflow : view;
  leaves : level;
  sum : list view
}.

(** The memory and the digest object. *)
Definition store : Type := (memory * hash_state)%type.

(** The locked block of [processLevel]: the values are read from the
    memory as it is now; [Sum(nil)] gives a slice of a new array. *)
Definition combine (st : store) (l r : view) : view * store :=
  let '(m, d) := st in
  let d := digest_Reset d in
  let d := d ++ [x01] in
  let d := d ++ read m l in
  let d := d ++ read m r in
  let '(m, s) := append m None (hsum d) in
  (s, (m, d)).

Definition fresh (v : view) (k : nat) (st : store)
  : level * store * list view :=
  (First v, st, repeat v k).

(** As [processLevel] above: [v], then [k] times nil. *)
Fixpoint processLevel (lv : level) (v : view) (k : nat) (st : store)
  : level * store * list view :=
  match lv with
  | AwaitFirst => fresh v k st
  | First l =>
      if is_nil v then (First l, st, repeat l (S k))
      else
        let '(s, st) := combine st l v in
        let '(e, st, f) := fresh s k st in
        (Pairing e, st, f)
  | Pairing egress =>
      if is_nil v then
        let '(e, st, f) := processLevel egress None k st in
        (Pairing e, st, f)
      else
        match k with
        | O => (PairingRight v egress, st, [])
        | S _ =>
            let '(e, st, f) := processLevel egress v k st in
            (Pairing e, st, f)
        end
  | PairingRight l egress =>
      if is_nil v then
        let '(e, st, f) := processLevel egress l (S k) st in
        (Pairing e, st, f)
      else
        let '(s, st) := combine st l v in
        let '(e, st, f) := processLevel egress s k st in
        (Pairing e, st, f)
  end.

(** [t.leaves <- v] *)
Definition send_leaf (m : memory) (t : tree) (v : view) : memory * tree :=
  let '(lv, (m, d), f) := processLevel (leaves t) v 0 (m, digest t) in
  (m, mkTree d (size t) (overflow t) lv (sum t ++ f)).

Definition set_overflow (t : tree) (o : view) : tree :=
  mkTree (digest t) (size t) o (leaves t) (sum t).

Definition fill_overflow (m : memory) (t : tree) (p : view)
  : outcome (memory * tree * Z) :=
  let n := vlen p in
  if 0 <? vlen (overflow t) then
    let i := size t - vlen (overflow t) in
    if i >? n then
      x <- reslice p 0 n ;;
      let '(m, o) := append m (overflow t) (read m x) in
      Ret (m, set_overflow t o, i)
    else
      x <- reslice p 0 i ;;
      let '(m, leaf) := append m (overflow t) (read m x) in
      let '(m, t) := send_leaf m t leaf in
      Ret (m, set_overflow t None, i)
  else Ret (m, t, 0).

Fixpoint emit_loop (fuel : nat) (m : memory) (t : tree) (p : view) (i j : Z)
  : outcome (memory * tree * Z) :=
  if j <=? vlen p then
    match fuel with
    | O => OutOfFuel
    | S fuel =>
        x <- reslice p i j ;;
        let '(m, t) := send_leaf m t x in
        emit_loop fuel m t p j (j + size t)
    end
  else Ret (m, t, i).

Definition keep_rest (t : tree) (p : view) (i : Z) : outcome tree :=
  if i <? vlen p then
    x <- reslice p i (vlen p) ;;
    Ret (set_overflow t x)
  else Ret t.

Definition Write (m : memory) (t : tree) (p : view)
  : outcome (memory * tree * (Z * error)) :=
  let n := vlen p in
  '(m, t, i) <- fill_overflow m t p ;;
  '(m, t, i) <- emit_loop (S (Z.to_nat n)) m t p i (i + size t) ;;
  t <- keep_rest t p i ;;
  Ret (m, t, (n, None)).

Definition Reset (m : memory) (t : tree) : outcome (memory * tree) :=
  '(m, o) <- make0 m (size t - 1) ;;
  Ret (m, mkTree (digest t) (size t) o AwaitFirst []).

Definition New (m : memory) (d : hash_state) : outcome (memory * tree) :=
  Reset m (mkTree d hsize None AwaitFirst []).

Definition Sum (m : memory) (t : tree) (b : view)
  : outcome (memory * tree * view) :=
  let '(m, t) := send_leaf m t None in
  match sum t with
  | [] => Blocks
  | r :: rest =>
      Ret (m, mkTree (digest t) (size t) (overflow t) (leaves t) rest, r)
  end.

(** The bytes of the values that the levels hold, level 0 first. *)
Fixpoint held (m : memory) (lv : level) : list (list byte) :=
  match lv with
  | AwaitFirst => []
  | First l => [read m l]
  | Pairing e => held m e
  | PairingRight l e => read m l :: held m e
  end.

(** The [Write] of tree/tree.go: the [i] declared in the [if] is not the
    [i] of the loop, and there is no test for a short input.  [later] is
    the later revision of the file, which sets the overflow to
    [make([]byte, 0, t.size-1)] where the earlier one sets it to nil.  (The
    levels of tree/tree.go combine without the lock; the lemmas on this
    [Write] hand at most one value to level 0, so that nothing is
    combined.) *)
Definition TreeGo_Write (later : bool) (m : memory) (t : tree) (p : view)
  : outcome (memory * tree * (Z * error)) :=
  let nn := vlen p in
  '(m, t) <- (if 0 <? vlen (overflow t) then
                let i := size t - vlen (overflow t) in
                x <- reslice p 0 i ;;
                let '(m, leaf) := append m (overflow t) (read m x) in
                let '(m, t) := send_leaf m t leaf in
                if later then
                  '(m, o) <- make0 m (size t - 1) ;;
                  Ret (m, set_overflow t o)
                else Ret (m, set_overflow t None)
              else Ret (m, t)) ;;
  '(m, t, i) <- emit_loop (S (Z.to_nat nn)) m t p 0 (0 + size t) ;;
  t <- keep_rest t p i ;;
  Ret (m, t, (nn, None)).

(** The writes of the slices [ps], then [Sum(nil)]: the memory, and the
    bytes of the root. *)
Fixpoint Writes (m : memory) (t : tree) (ps : list view)
  : outcome (memory * tree) :=
  match ps with
  | [] => Ret (m, t)
  | p :: ps => '(m, t, _) <- Write m t p ;; Writes m t ps
  end.

Definition root_of (m : memory) (d : hash_state) (ps : list view)
  : outcome (memory * list byte) :=
  '(m, t) <- New m d ;;
  '(m, t) <- Writes m t ps ;;
  '(m, _, r) <- Sum m t None ;;
  Ret (m, read m r).

End Thex.
End Heap.

(** * Vocabulary of the properties *)

Section Vocabulary.
Context {H : HashAlg}.

(** The digest of a message, as [Sum(nil)] returns it. *)
Definition Hash (m : list byte) : slice := append None (Some (hsum m)).

(** The parent of two values. *)
Definition parent (l r : slice) : slice :=
  Hash ([x01] ++ bytes_of l ++ bytes_of r).

(** The result of the level above, as the result of a level in its second
    loop. *)
Definition under_pairing (r : level * hash_state * list slice)
  : level * hash_state * list slice :=
  let '(e, d, f) := r in (Pairing e, d, f).

(** After a result, the level receives nil and [k] more nils. *)
Definition then_nils (r : level * hash_state * list slice) (k : nat)
  : level * hash_state * list slice :=
  let '(lv, d, f) := r in
  let '(lv, d, g) := processLevel lv None k d in
  (lv, d, f ++ g).

(** A result without the digest object: the level and the values sent on
    [final]. *)
Definition seen (r : level * hash_state * list slice) : level * list slice :=
  (fst (fst r), snd r).

(** A level that has taken a first value, and so have the levels above. *)
Inductive ready : level -> Prop :=
| ready_First l : ready (First l)
| ready_Pairing e : ready e -> ready (Pairing e)
| ready_PairingRight l e :
    is_nil l = false -> ready e -> ready (PairingRight l e).

(** The leaves [cs] handed to level 0, one after the other. *)
Definition send_all (t : tree) (cs : list (list byte)) : tree :=
  fold_left (fun t c => send_leaf t (Some c)) cs t.

(** The invariant of the framer between calls. *)
Definition wf (t : tree) : Prop :=
  1 <= size t /\ len (overflow t) < size t.

(** Successive [Write] calls, one per segment. *)
Fixpoint Writes (t : tree) (segs : list slice) : outcome tree :=
  match segs with
  | [] => Ret t
  | p :: segs => '(t, _) <- Write t p ;; Writes t segs
  end.

(** All the bytes of the segments. *)
Definition flatten (segs : list slice) : list byte :=
  concat (map bytes_of segs).

(** The root: the segments written one after the other, then [Sum(b)]. *)
Definition root_of (t : tree) (segs : list slice) (b : slice) : outcome slice :=
  t <- Writes t segs ;; omap snd (Sum t b).

(** The trees a program can hold: made by [New], then any calls. *)
Inductive reachable : tree -> Prop :=
| reach_New d t : New d = Ret t -> reachable t
| reach_Write t p t' r : reachable t -> Write t p = Ret (t', r) -> reachable t'
| reach_Sum t b t' r : reachable t -> Sum t b = Ret (t', r) -> reachable t'
| reach_Reset t t' : reachable t -> Reset t = Ret t' -> reachable t'.


End Vocabulary.

(** The records of a byte stream, byte by byte: [acc] is the incomplete
    record so far; the result is the completed records and what is left. *)
Fixpoint frame (sz : nat) (acc l : list byte) : list (list byte) * list byte :=
  match l with
  | [] => ([], acc)
  | b :: l' =>
      if Nat.eqb (S (length acc)) sz then
        let '(cs, r) := frame sz [] l' in ((acc ++ [b]) :: cs, r)
      else frame sz (acc ++ [b]) l'
  end.

(** A small hash algorithm for concrete runs: Fletcher's checksum, two
    bytes wide. *)
Definition byte_of_N (n : N) : byte :=
  match Byte.of_N n with
  | Some b => b
  | None => x00
  end.

Definition fletcher (d : list byte) : list byte :=
  let '(s1, s2) :=
    fold_left
      (fun '(s1, s2) b =>
         let s1 := ((s1 + Byte.to_N b) mod 255)%N in
         (s1, ((s2 + s1) mod 255)%N))
      d (0%N, 0%N) in
  [byte_of_N s2; byte_of_N s1].

Definition fletcher16 : HashAlg := {| hsum := fletcher; hsize := 2 |}.

(** The same, four bytes wide. *)
Definition fletcher32 : HashAlg :=
  {| hsum := fun d => fletcher d ++ fletcher (x01 :: d); hsize := 4 |}.

(** ** Vocabulary of the further properties *)

Section Trees.
Context {H : HashAlg}.

(** One level of the tree in one go: neighbours are paired and an odd
    last value goes up as it is. *)
Fixpoint pairs (xs : list slice) : list slice :=
  match xs with
  | a :: b :: rest => parent a b :: pairs rest
  | _ => xs
  end.

(** The levels one after the other, down to one value; [fuel] bounds the
    number of levels. *)
Fixpoint reduce (fuel : nat) (xs : list slice) : slice :=
  match xs with
  | [] => None
  | [x] => x
  | _ =>
      match fuel with
      | O => None
      | S fuel => reduce fuel (pairs xs)
      end
  end.

(** The root of the hash tree over the values [xs]. *)
Definition merkle_root (xs : list slice) : slice := reduce (length xs) xs.

(** The pairs a level has combined: their values in order of arrival, and
    their parents. *)
Definition flat (ps : list (slice * slice)) : list slice :=
  concat (map (fun ab => [fst ab; snd ab]) ps).

Definition parents (ps : list (slice * slice)) : list slice :=
  map (fun ab => parent (fst ab) (snd ab)) ps.

(** [holds lv xs]: the level [lv] (and the levels above it) is where the
    values [xs], none of them nil, received since its start leave it. *)
Inductive holds : level -> list slice -> Prop :=
| holds_AwaitFirst : holds AwaitFirst []
| holds_First x : holds (First x) [x]
| holds_Pairing e ps :
    ps <> [] -> holds e (parents ps) -> holds (Pairing e) (flat ps)
| holds_PairingRight x e ps :
    ps <> [] -> is_nil x = false -> holds e (parents ps) ->
    holds (PairingRight x e) (flat ps ++ [x]).

(** The goroutines of a pipeline: the level and the levels above it. *)
Fixpoint levels (lv : level) : nat :=
  match lv with
  | AwaitFirst | First _ => 1
  | Pairing e | PairingRight _ e => S (levels e)
  end.

(** A pipeline after an end-of-stream marker has gone through it. *)
Inductive drained : level -> Prop :=
| drained_First l : drained (First l)
| drained_Pairing e : drained e -> drained (Pairing e).

(** The value held by the topmost level. *)
Fixpoint top (lv : level) : slice :=
  match lv with
  | AwaitFirst => None
  | First l => l
  | Pairing e | PairingRight _ e => top e
  end.

(** A segment that ends on a leaf boundary: its length is a multiple of
    the digest width.  While every segment written so far is one, no
    record is pending and [Write] does not call [append]. *)
Definition whole_leaves (p : slice) : Prop := len p mod hsize = 0.

(** A pipeline in which every value held is a real value, not nil. *)
Inductive solid : level -> Prop :=
| solid_First l : is_nil l = false -> solid (First l)
| solid_Pairing e : solid e -> solid (Pairing e)
| solid_PairingRight l e :
    is_nil l = false -> solid e -> solid (PairingRight l e).

(** A value as wide as a digest, and not nil. *)
Definition digest_wide (x : slice) : Prop :=
  len x = hsize /\ is_nil x = false.

(** The loop of TestGolden (hashtree_test.go, tree/tree_test.go) for one
    test vector: [tree.Write(leaf)], [tree.Sum(nil)], [tree.Reset()], [n]
    times; the roots are collected in order.  ([leaf] is what the base
    algorithm made of the input; the test compares the base32 text of each
    root with the expected text.) *)
Fixpoint golden_rounds (n : nat) (t : tree) (leaf : slice)
  : outcome (tree * list slice) :=
  match n with
  | O => Ret (t, [])
  | S n =>
      '(t, _) <- Write t leaf ;;
      '(t, s) <- Sum t None ;;
      t <- Reset t ;;
      '(t, ss) <- golden_rounds n t leaf ;;
      Ret (t, s :: ss)
  end.

End Trees.

(** * Properties *)

(** ** The combine pipeline *)

Section Pipeline.
Context {H : HashAlg}.

Lemma combine_eq (d : hash_state) (l r : slice) :
  combine d l r = (parent l r, [x01] ++ bytes_of l ++ bytes_of r).
Proof.
  unfold combine, parent, Hash, digest_Sum, digest_Write, digest_Reset.
  cbn [innerPrefix bytes_of app]. reflexivity.
Qed.

Lemma processLevel_Pairing_nil e k d :
  processLevel (Pairing e) None k d = under_pairing (processLevel e None k d).
Proof. reflexivity. Qed.

Lemma then_nils_under_pairing r k :
  then_nils (under_pairing r) k = under_pairing (then_nils r k).
Proof.
  destruct r as [[e d] f]. unfold under_pairing at 1, then_nils at 1.
  rewrite processLevel_Pairing_nil.
  unfold then_nils. destruct (processLevel e None k d) as [[e' d'] g].
  reflexivity.
Qed.

(** The nils that follow a value are received one after the other: [k1]
    of them first, then one more and the [k2] that follow it. *)
Lemma processLevel_nils (lv : level) :
  forall v k1 k2 d,
    processLevel lv v (k1 + S k2) d = then_nils (processLevel lv v k1 d) k2.
Proof.
  induction lv as [|l|e IH|l e IH]; intros v k1 k2 d.
  - unfold then_nils. cbn [processLevel is_nil]. unfold fresh.
    cbn [processLevel is_nil]. rewrite repeat_app. reflexivity.
  - cbn [processLevel]. destruct (is_nil v).
    + unfold then_nils. cbn [processLevel is_nil].
      change (S (k1 + S k2)) with (S k1 + S k2)%nat.
      rewrite repeat_app. reflexivity.
    + destruct (combine d l v) as [s d'].
      unfold fresh, then_nils. cbn [processLevel is_nil]. unfold fresh.
      cbn [processLevel is_nil]. rewrite repeat_app. reflexivity.
  - cbn [processLevel]. destruct (is_nil v).
    + rewrite IH. fold (under_pairing (processLevel e None k1 d)).
      rewrite then_nils_under_pairing. reflexivity.
    + destruct k1 as [|k1].
      * cbn [Nat.add then_nils processLevel is_nil app].
        destruct (processLevel e v (S k2) d) as [[e' d'] f]. reflexivity.
      * cbn [Nat.add]. change (S (k1 + S k2)) with (S k1 + S k2)%nat.
        rewrite IH. fold (under_pairing (processLevel e v (S k1) d)).
        rewrite then_nils_under_pairing. reflexivity.
  - cbn [processLevel]. destruct (is_nil v).
    + change (S (k1 + S k2)) with (S k1 + S k2)%nat.
      rewrite IH. fold (under_pairing (processLevel e l (S k1) d)).
      rewrite then_nils_under_pairing. reflexivity.
    + destruct (combine d l v) as [s d'].
      rewrite IH. fold (under_pairing (processLevel e s k1 d')).
      rewrite then_nils_under_pairing. reflexivity.
Qed.

(** [recv] satisfies the equations of the source text of [processLevel],
    one per receive. *)
Lemma recv_AwaitFirst v d : recv AwaitFirst v d = (First v, d, []).
Proof. reflexivity. Qed.

Lemma recv_First_nil l d : recv (First l) None d = (First l, d, [l]).
Proof. reflexivity. Qed.

Lemma recv_First_value l r d :
  recv (First l) (Some r) d =
  let '(s, d) := combine d l (Some r) in
  under_pairing (recv AwaitFirst s d).
Proof.
  unfold recv. cbn [processLevel is_nil].
  destruct (combine d l (Some r)) as [s d']. reflexivity.
Qed.

Lemma recv_Pairing_nil e d :
  recv (Pairing e) None d = under_pairing (recv e None d).
Proof. reflexivity. Qed.

Lemma recv_Pairing_value e x d :
  recv (Pairing e) (Some x) d = (PairingRight (Some x) e, d, []).
Proof. reflexivity. Qed.

Lemma recv_PairingRight_nil l e d :
  recv (PairingRight l e) None d =
  let '(e, d, f1) := recv e l d in
  let '(e, d, f2) := recv e None d in
  (Pairing e, d, f1 ++ f2).
Proof.
  unfold recv. cbn [processLevel is_nil].
  change 1%nat with (0 + 1)%nat. rewrite processLevel_nils.
  unfold then_nils.
  destruct (processLevel e l 0 d) as [[e1 d1] f1].
  destruct (processLevel e1 None 0 d1) as [[e2 d2] f2]. reflexivity.
Qed.

Lemma recv_PairingRight_value l e r d :
  recv (PairingRight l e) (Some r) d =
  let '(s, d) := combine d l (Some r) in
  under_pairing (recv e s d).
Proof.
  unfold recv. cbn [processLevel is_nil].
  destruct (combine d l (Some r)) as [s d']. reflexivity.
Qed.


Lemma parent_not_nil `{HOk : !HashOk H} (l r : slice) :
  0 < hsize -> is_nil (parent l r) = false.
Proof.
  intros Hpos. unfold parent, Hash, append. cbn [bytes_of].
  generalize (hsum_width ([x01] ++ bytes_of l ++ bytes_of r)).
  destruct (hsum _); cbn [length]; [lia | reflexivity].
Qed.

(** A value followed by [k] nils: [k] values reach [final]. *)
Lemma processLevel_value `{HOk : !HashOk H} (Hpos : 0 < hsize) (lv : level) :
  forall v k d,
    lv = AwaitFirst \/ ready lv ->
    is_nil v = false ->
    ready (fst (fst (processLevel lv v k d))) /\
    length (snd (processLevel lv v k d)) = k.
Proof.
  induction lv as [|l|e IH|l e IH]; intros v k d Hlv Hv; cbn [processLevel].
  - unfold fresh. cbn. split; [constructor | apply repeat_length].
  - rewrite Hv, combine_eq. unfold fresh. cbn.
    split; [do 2 constructor | apply repeat_length].
  - assert (He : ready e) by (destruct Hlv as [|Hr]; [discriminate | now inversion Hr]).
    rewrite Hv. destruct k as [|k].
    + cbn. split; [now constructor | reflexivity].
    + specialize (IH v (S k) d (or_intror He) Hv).
      destruct (processLevel e v (S k) d) as [[e' d'] f]. cbn in *.
      split; [constructor; tauto | tauto].
  - assert (He : ready e) by (destruct Hlv as [|Hr]; [discriminate | now inversion Hr]).
    rewrite Hv, combine_eq.
    specialize (IH (parent l v) k ([x01] ++ bytes_of l ++ bytes_of v)
                  (or_intror He) (parent_not_nil l v Hpos)).
    destruct (processLevel e (parent l v) k _) as [[e' d'] f]. cbn in *.
    split; [constructor; tauto | tauto].
Qed.

(** Nil and [k] more nils to a ready level: [k + 1] values reach [final]. *)
Lemma processLevel_nil `{HOk : !HashOk H} (Hpos : 0 < hsize) (lv : level) :
  forall k d,
    ready lv ->
    ready (fst (fst (processLevel lv None k d))) /\
    length (snd (processLevel lv None k d)) = S k.
Proof.
  induction lv as [|l|e IH|l e IH]; intros k d Hlv; cbn [processLevel is_nil].
  - inversion Hlv.
  - cbn. split; [constructor | now rewrite repeat_length].
  - inversion Hlv as [| ? He |]; subst.
    specialize (IH k d He).
    destruct (processLevel e None k d) as [[e' d'] f]. cbn in *.
    split; [constructor; tauto | tauto].
  - inversion Hlv as [| | ? ? Hl He]; subst.
    destruct (processLevel_value Hpos e l (S k) d (or_intror He) Hl) as [Hr Hn].
    destruct (processLevel e l (S k) d) as [[e' d'] f]. cbn in *.
    split; [now constructor | assumption].
Qed.

End Pipeline.

(** ** The leaf framer *)

Lemma frame_app (sz : nat) (x : list byte) :
  forall acc y,
    frame sz acc (x ++ y) =
    let '(c1, r1) := frame sz acc x in
    let '(c2, r2) := frame sz r1 y in
    (c1 ++ c2, r2).
Proof.
  induction x as [|b x IH]; intros acc y; cbn [app frame].
  - now destruct (frame sz acc y).
  - destruct (Nat.eqb (S (length acc)) sz).
    + rewrite IH. destruct (frame sz [] x) as [c1 r1].
      now destruct (frame sz r1 y).
    + apply IH.
Qed.

Lemma frame_short (sz : nat) (l : list byte) :
  forall acc,
    (length acc + length l < sz)%nat -> frame sz acc l = ([], acc ++ l).
Proof.
  induction l as [|b l IH]; intros acc Hlt; cbn [frame].
  - now rewrite app_nil_r.
  - cbn [length] in Hlt.
    destruct (Nat.eqb_spec (S (length acc)) sz) as [E|E]; [lia|].
    rewrite IH.
    + now rewrite <- app_assoc.
    + rewrite length_app. cbn [length]. lia.
Qed.

Lemma frame_chunk (sz : nat) (l : list byte) :
  forall acc,
    (length acc < sz)%nat ->
    (sz <= length acc + length l)%nat ->
    frame sz acc l =
    let '(cs, r) := frame sz [] (skipn (sz - length acc) l) in
    ((acc ++ firstn (sz - length acc) l) :: cs, r).
Proof.
  induction l as [|b l IH]; intros acc Hacc Hsz.
  - cbn [length] in Hsz. lia.
  - cbn [frame length] in *.
    destruct (Nat.eqb_spec (S (length acc)) sz) as [E|E].
    + replace (sz - length acc)%nat with 1%nat by lia. reflexivity.
    + rewrite IH by (rewrite length_app; cbn [length]; lia).
      rewrite length_app. cbn [length].
      replace (sz - length acc)%nat with (S (sz - (length acc + 1)))%nat by lia.
      cbn [skipn firstn].
      destruct (frame sz [] (skipn (sz - (length acc + 1)) l)) as [cs r].
      now rewrite <- app_assoc.
Qed.

Lemma frame_rest_lt (sz : nat) (l : list byte) :
  forall acc,
    (length acc < sz)%nat -> (length (snd (frame sz acc l)) < sz)%nat.
Proof.
  induction l as [|b l IH]; intros acc Hacc; cbn [frame].
  - assumption.
  - destruct (Nat.eqb_spec (S (length acc)) sz) as [E|E].
    + specialize (IH [] ltac:(cbn; lia)).
      now destruct (frame sz [] l).
    + apply IH. rewrite length_app. cbn [length]. lia.
Qed.

(** Complete records only: they are the records of their concatenation. *)
Lemma frame_concat (sz : nat) (ls : list (list byte)) :
  (0 < sz)%nat ->
  Forall (fun l => length l = sz) ls ->
  frame sz [] (concat ls) = (ls, []).
Proof.
  intros Hsz. induction 1 as [|l ls Hl _ IH]; [reflexivity|].
  cbn [concat]. rewrite frame_app.
  rewrite (frame_chunk sz l []) by (cbn [length]; lia).
  cbn [length app]. rewrite Nat.sub_0_r.
  replace (skipn sz l) with (@nil byte) by (symmetry; apply skipn_all2; lia).
  replace (firstn sz l) with l by (symmetry; apply firstn_all2; lia).
  cbn [frame]. now rewrite IH.
Qed.

Section Framer.
Context {H : HashAlg}.

Lemma size_send_leaf t v : size (send_leaf t v) = size t.
Proof.
  unfold send_leaf. now destruct (recv (leaves t) v (digest t)) as [[? ?] ?].
Qed.

Lemma overflow_send_leaf t v : overflow (send_leaf t v) = overflow t.
Proof.
  unfold send_leaf. now destruct (recv (leaves t) v (digest t)) as [[? ?] ?].
Qed.

Lemma send_leaf_set_overflow t o v :
  send_leaf (set_overflow t o) v = set_overflow (send_leaf t v) o.
Proof.
  unfold send_leaf, set_overflow. cbn [digest size overflow leaves sum].
  now destruct (recv (leaves t) v (digest t)) as [[? ?] ?].
Qed.

Lemma set_overflow_twice t o o' :
  set_overflow (set_overflow t o) o' = set_overflow t o'.
Proof. reflexivity. Qed.

Lemma set_overflow_same t : set_overflow t (overflow t) = t.
Proof. now destruct t. Qed.

Lemma size_send_all cs : forall t, size (send_all t cs) = size t.
Proof.
  induction cs as [|c cs IH]; intros t; cbn; [reflexivity|].
  fold (send_all (send_leaf t (Some c)) cs). now rewrite IH, size_send_leaf.
Qed.

Lemma overflow_send_all cs : forall t, overflow (send_all t cs) = overflow t.
Proof.
  induction cs as [|c cs IH]; intros t; cbn; [reflexivity|].
  fold (send_all (send_leaf t (Some c)) cs). now rewrite IH, overflow_send_leaf.
Qed.

Lemma send_all_set_overflow cs :
  forall t o, send_all (set_overflow t o) cs = set_overflow (send_all t cs) o.
Proof.
  induction cs as [|c cs IH]; intros t o; cbn; [reflexivity|].
  fold (send_all (send_leaf (set_overflow t o) (Some c)) cs).
  fold (send_all (send_leaf t (Some c)) cs).
  now rewrite send_leaf_set_overflow, IH.
Qed.

Lemma send_all_app cs1 cs2 t :
  send_all t (cs1 ++ cs2) = send_all (send_all t cs1) cs2.
Proof. apply fold_left_app. Qed.

Lemma reslice_Some (l : list byte) (i j : nat) :
  (i <= j <= length l)%nat ->
  reslice (Some l) (Z.of_nat i) (Z.of_nat j) =
  Ret (Some (firstn (j - i) (skipn i l))).
Proof.
  intros Hij. unfold reslice, len. cbn [bytes_of].
  replace ((0 <=? Z.of_nat i) && (Z.of_nat i <=? Z.of_nat j)
           && (Z.of_nat j <=? Z.of_nat (length l))) with true
    by (symmetry; rewrite !andb_true_iff, !Z.leb_le; lia).
  rewrite <- Nat2Z.inj_sub, !Nat2Z.id by lia. reflexivity.
Qed.

(** The loop of [Write] emits the records of [p[i:]]; [S (len p)] rounds
    are enough. *)
Lemma emit_loop_spec (sz : nat) (l : list byte) (Hsz : (0 < sz)%nat) :
  forall fuel t (i : nat),
    size t = Z.of_nat sz ->
    (i <= length l)%nat ->
    (length l - i < fuel)%nat ->
    exists i' : nat,
      (i' <= length l)%nat /\
      emit_loop fuel t (Some l) (Z.of_nat i) (Z.of_nat i + size t) =
      Ret (send_all t (fst (frame sz [] (skipn i l))), Z.of_nat i') /\
      snd (frame sz [] (skipn i l)) = skipn i' l.
Proof.
  induction fuel as [|fuel IH]; intros t i Hsize Hi Hfuel; [lia|].
  cbn [emit_loop]. unfold len. cbn [bytes_of]. rewrite Hsize.
  destruct (Z.leb_spec (Z.of_nat i + Z.of_nat sz) (Z.of_nat (length l))) as [Hj|Hj].
  - rewrite <- Nat2Z.inj_add.
    rewrite reslice_Some by lia. cbn [bind].
    replace (i + sz - i)%nat with sz by lia.
    assert (Hs' : size (send_leaf t (Some (firstn sz (skipn i l)))) = Z.of_nat sz)
      by now rewrite size_send_leaf.
    destruct (IH (send_leaf t (Some (firstn sz (skipn i l)))) (i + sz)%nat
                Hs' ltac:(lia) ltac:(lia)) as (i' & Hi' & Hrun & Hrest).
    exists i'. split; [assumption|].
    rewrite (frame_chunk sz (skipn i l) []) by (rewrite ?length_skipn; cbn [length]; lia).
    cbn [length app]. rewrite Nat.sub_0_r, skipn_skipn.
    rewrite (Nat.add_comm sz i).
    rewrite Hs' in Hrun. rewrite Hrun.
    destruct (frame sz [] (skipn (i + sz) l)) as [cs r]. cbn in *. tauto.
  - exists i. split; [assumption|].
    rewrite frame_short by (rewrite length_skipn; cbn [length]; lia).
    cbn. tauto.
Qed.

Lemma emit_loop_done fuel t p i j :
  len p < j -> emit_loop fuel t p i j = Ret (t, i).
Proof.
  intros Hj. destruct fuel; cbn [emit_loop];
    now destruct (Z.leb_spec j (len p)); [lia|].
Qed.

Lemma keep_rest_spec t (l : list byte) (i : nat) :
  (i <= length l)%nat ->
  exists o,
    keep_rest t (Some l) (Z.of_nat i) = Ret (set_overflow t o) /\
    (bytes_of o = skipn i l \/ (o = overflow t /\ i = length l)).
Proof.
  intros Hi. unfold keep_rest, len. cbn [bytes_of].
  destruct (Z.ltb_spec (Z.of_nat i) (Z.of_nat (length l))) as [Hlt|Hge].
  - rewrite reslice_Some by lia. cbn [bind].
    eexists. split; [reflexivity|]. left. cbn [bytes_of].
    apply firstn_all2. rewrite length_skipn. lia.
  - exists (overflow t). rewrite set_overflow_same.
    split; [reflexivity|]. right. split; [reflexivity | lia].
Qed.

(** [Write] hands the completed records of [overflow ++ p] to level 0, in
    order, keeps the rest as the overflow, and returns [len(p), nil]. *)
Lemma Write_spec (t : tree) (p : slice) :
  wf t ->
  exists o,
    bytes_of o =
      snd (frame (Z.to_nat (size t)) (bytes_of (overflow t)) (bytes_of p)) /\
    Write t p =
      Ret (set_overflow
             (send_all t
                (fst (frame (Z.to_nat (size t)) (bytes_of (overflow t))
                        (bytes_of p)))) o,
           (len p, None)).
Proof.
  intros [Hs Ho].
  remember (Z.to_nat (size t)) as sz eqn:Esz.
  assert (Hsize : size t = Z.of_nat sz) by lia.
  assert (Hsz : (0 < sz)%nat) by lia.
  unfold len in Ho. unfold Write, fill_overflow.
  destruct (Z.ltb_spec 0 (len (overflow t))) as [Hov|Hov]; unfold len in Hov.
  - (* an overflow is pending *)
    destruct (overflow t) as [ov|] eqn:Eov; cbn [bytes_of length] in *; [|lia].
    destruct (Z.gtb_spec (size t - len (Some ov)) (len p)) as [Hshort|Hfull].
    + (* still short *)
      unfold len in Hshort. cbn [bytes_of] in *.
      assert (Hx : exists x, reslice p 0 (len p) = Ret x /\ bytes_of x = bytes_of p).
      { destruct p as [l|].
        - exists (Some l). split; [|reflexivity].
          change 0 with (Z.of_nat 0). unfold len. cbn [bytes_of].
          rewrite reslice_Some by lia. cbn [skipn].
          now rewrite Nat.sub_0_r, firstn_all.
        - exists None. split; reflexivity. }
      destruct Hx as (x & -> & Hx). cbn [bind].
      rewrite emit_loop_done
        by (unfold set_overflow, len; cbn [size bytes_of]; lia).
      cbn [bind]. unfold keep_rest.
      destruct (Z.ltb_spec (size t - len (Some ov)) (len p)) as [Hc|_];
        [unfold len in Hc; cbn [bytes_of] in Hc; lia|].
      cbn [bind]. rewrite frame_short by lia. cbn [fst snd send_all fold_left].
      exists (append (Some ov) x). split.
      * unfold append. rewrite Hx. cbn [bytes_of]. now destruct (bytes_of p).
      * reflexivity.
    + (* the record is completed *)
      unfold len in Hfull. cbn [bytes_of] in *.
      destruct p as [l|]; cbn [bytes_of length] in *; [|lia].
      unfold len. cbn [bytes_of].
      remember (sz - length ov)%nat as i eqn:Ei.
      replace (size t - Z.of_nat (length ov)) with (Z.of_nat i) by lia.
      change 0 with (Z.of_nat 0) at 1.
      rewrite reslice_Some by lia. cbn [bind skipn]. rewrite Nat.sub_0_r.
      set (leaf := append (Some ov) (Some (firstn i l))).
      set (t1 := set_overflow (send_leaf t leaf) None).
      assert (Hs1 : size t1 = Z.of_nat sz)
        by (unfold t1, set_overflow; cbn [size]; now rewrite size_send_leaf).
      destruct (emit_loop_spec sz l Hsz (S (length l)) t1 i Hs1 ltac:(lia) ltac:(lia))
        as (i' & Hi' & Hrun & Hrest).
      replace (size (set_overflow (send_leaf t leaf) None)) with (size t1)
        by reflexivity.
      fold t1. rewrite Hrun. cbn [bind].
      destruct (keep_rest_spec (send_all t1 (fst (frame sz [] (skipn i l)))) l i' Hi')
        as (o & Hkeep & Hbytes).
      rewrite Hkeep. cbn [bind].
      rewrite (frame_chunk sz l ov) by lia. rewrite <- Ei.
      destruct (frame sz [] (skipn i l)) as [cs r]. cbn [fst snd] in *.
      exists o. split.
      * destruct Hbytes as [Hb|[Hb Hn]]; [congruence|].
        subst o i'. rewrite overflow_send_all. unfold t1. cbn [overflow set_overflow bytes_of].
        now rewrite Hrest, skipn_all.
      * unfold t1. rewrite send_all_set_overflow, set_overflow_twice.
        cbn [send_all fold_left]. unfold leaf, append. cbn [bytes_of].
        destruct (firstn i l) eqn:Ef; [|reflexivity].
        now rewrite app_nil_r.
  - (* no overflow pending *)
    assert (Hnil : bytes_of (overflow t) = [])
      by (destruct (bytes_of (overflow t)); [reflexivity | cbn [length] in Hov; lia]).
    rewrite Hnil. cbn [bind Z.add].
    destruct p as [l|]; cbn [bytes_of length].
    + destruct (emit_loop_spec sz l Hsz (S (length l)) t 0%nat Hsize ltac:(lia) ltac:(lia))
        as (i' & Hi' & Hrun & Hrest).
      cbn [skipn Z.of_nat Z.add] in *. change (0 + size t) with (size t) in Hrun.
      rewrite Hrun. cbn [bind].
      destruct (keep_rest_spec (send_all t (fst (frame sz [] l))) l i' Hi')
        as (o & Hkeep & Hbytes).
      rewrite Hkeep. cbn [bind].
      destruct (frame sz [] l) as [cs r]. cbn [fst snd] in *.
      exists o. split; [|reflexivity].
      destruct Hbytes as [Hb|[Hb Hn]]; [congruence|].
      subst o i'. rewrite overflow_send_all, Hnil.
      now rewrite Hrest, skipn_all.
    + rewrite emit_loop_done by (unfold len; cbn [bytes_of length]; lia).
      cbn [bind]. unfold keep_rest, len. cbn [bytes_of length frame fst snd
        send_all fold_left]. cbn [Z.ltb Z.compare Z.of_nat bind].
      exists (overflow t). split; [assumption|].
      now rewrite set_overflow_same.
Qed.

End Framer.

(** ** Sequences of calls *)

Section Runs.
Context {H : HashAlg}.

Lemma wf_set_overflow t o :
  1 <= size t -> len o < size t -> wf (set_overflow t o).
Proof. intros; split; assumption. Qed.

Lemma wf_after (t : tree) (l : list byte) (o : slice) cs :
  wf t ->
  bytes_of o = snd (frame (Z.to_nat (size t)) (bytes_of (overflow t)) l) ->
  wf (set_overflow (send_all t cs) o).
Proof.
  intros [Hs Ho] Hb. apply wf_set_overflow; rewrite size_send_all; [assumption|].
  unfold len in *. rewrite Hb.
  pose proof (frame_rest_lt (Z.to_nat (size t)) l (bytes_of (overflow t))
                ltac:(lia)).
  lia.
Qed.

Lemma Writes_spec (segs : list slice) :
  forall t,
    wf t ->
    exists o,
      bytes_of o =
        snd (frame (Z.to_nat (size t)) (bytes_of (overflow t)) (flatten segs)) /\
      Writes t segs =
        Ret (set_overflow
               (send_all t
                  (fst (frame (Z.to_nat (size t)) (bytes_of (overflow t))
                          (flatten segs)))) o).
Proof.
  induction segs as [|p segs IH]; intros t Hwf.
  - exists (overflow t). cbn. split; [reflexivity|]. now rewrite set_overflow_same.
  - destruct (Write_spec t p Hwf) as (o1 & Hb1 & Hw).
    cbn [Writes]. rewrite Hw. cbn [bind].
    unfold flatten. cbn [map concat]. fold (flatten segs).
    rewrite frame_app.
    destruct (frame (Z.to_nat (size t)) (bytes_of (overflow t)) (bytes_of p))
      as [c1 r1] eqn:E1.
    cbn [fst snd] in *.
    assert (Hwf1 : wf (set_overflow (send_all t c1) o1)).
    { apply (wf_after t (bytes_of p)); [assumption|]. now rewrite E1. }
    destruct (IH _ Hwf1) as (o2 & Hb2 & Hws).
    rewrite Hws.
    cbn [size overflow set_overflow] in *. rewrite size_send_all in *.
    rewrite Hb1 in *.
    destruct (frame (Z.to_nat (size t)) r1 (flatten segs)) as [c2 r2].
    cbn [fst snd] in *.
    exists o2. split; [assumption|].
    now rewrite send_all_set_overflow, set_overflow_twice, send_all_app.
Qed.

Lemma Sum_set_overflow t o b :
  omap snd (Sum (set_overflow t o) b) = omap snd (Sum t b).
Proof.
  unfold Sum. rewrite send_leaf_set_overflow. cbn [sum set_overflow].
  now destruct (sum (send_leaf t None)).
Qed.

Lemma root_of_spec (t : tree) (segs : list slice) (b : slice) :
  wf t ->
  root_of t segs b =
  omap snd
    (Sum (send_all t
            (fst (frame (Z.to_nat (size t)) (bytes_of (overflow t))
                    (flatten segs)))) b).
Proof.
  intros Hwf. unfold root_of.
  destruct (Writes_spec segs t Hwf) as (o & _ & ->). cbn [bind].
  apply Sum_set_overflow.
Qed.

Lemma New_spec (d : hash_state) :
  (1 <= hsize /\ New d = Ret (mkTree d hsize (Some []) AwaitFirst [])) \/
  (hsize < 1 /\ New d = Panic).
Proof.
  unfold New, Reset, make0. cbn [size].
  destruct (Z.leb_spec 0 (hsize - 1)); [left | right]; (split; [lia | reflexivity]).
Qed.

Lemma wf_New d t : New d = Ret t -> wf t.
Proof.
  destruct (New_spec d) as [[Hs ->]|[_ ->]]; [|discriminate].
  intros [= <-]. split; cbn; lia.
Qed.

End Runs.

Section Facts.
Context {H : HashAlg}.

Lemma wf_Write t p t' r : wf t -> Write t p = Ret (t', r) -> wf t'.
Proof.
  intros Hwf Hw. destruct (Write_spec t p Hwf) as (o & Hb & Hw').
  rewrite Hw' in Hw. injection Hw as <- _.
  now apply (wf_after t (bytes_of p)).
Qed.

Lemma Sum_fields t b t' r :
  Sum t b = Ret (t', r) -> size t' = size t /\ overflow t' = overflow t.
Proof.
  unfold Sum. destruct (sum (send_leaf t None)); [discriminate|].
  intros [= <- _]. cbn. now rewrite size_send_leaf, overflow_send_leaf.
Qed.

Lemma wf_Sum t b t' r : wf t -> Sum t b = Ret (t', r) -> wf t'.
Proof.
  intros [Hs Ho] HS. destruct (Sum_fields _ _ _ _ HS) as [E1 E2].
  unfold wf. now rewrite E1, E2.
Qed.

Lemma Reset_spec t :
  (1 <= size t /\ Reset t = Ret (mkTree (digest t) (size t) (Some []) AwaitFirst [])) \/
  (size t < 1 /\ Reset t = Panic).
Proof.
  unfold Reset, make0.
  destruct (Z.leb_spec 0 (size t - 1)); [left | right]; (split; [lia | reflexivity]).
Qed.

Lemma wf_Reset t t' : Reset t = Ret t' -> wf t'.
Proof.
  destruct (Reset_spec t) as [[Hs ->]|[_ ->]]; [|discriminate].
  intros [= <-]. split; cbn; lia.
Qed.

Lemma reachable_wf t : reachable t -> wf t.
Proof.
  induction 1 as [d t HN | t p t' r _ IH HW | t b t' r _ IH HS | t t' _ IH HR].
  - now apply (wf_New d).
  - now apply (wf_Write t p t' r).
  - now apply (wf_Sum t b t' r).
  - now apply (wf_Reset t).
Qed.

Lemma size_New d t : New d = Ret t -> size t = hsize.
Proof.
  destruct (New_spec d) as [[_ ->]|[_ ->]]; [|discriminate]. now intros [= <-].
Qed.

Lemma reachable_size t : reachable t -> size t = hsize.
Proof.
  induction 1 as [d t HN | t p t' r Ht IH HW | t b t' r _ IH HS | t t' _ IH HR].
  - now apply (size_New d).
  - destruct (Write_spec t p (reachable_wf t Ht)) as (o & _ & Hw').
    rewrite Hw' in HW. injection HW as <- _.
    cbn [size set_overflow]. now rewrite size_send_all.
  - destruct (Sum_fields _ _ _ _ HS) as [-> _]. assumption.
  - destruct (Reset_spec t) as [[_ E]|[_ E]]; rewrite E in HR; [|discriminate].
    injection HR as <-. assumption.
Qed.





(** Level 0 once a leaf has arrived. *)
Lemma send_leaf_ready `{HOk : !HashOk H} (Hpos : 0 < hsize) t c :
  leaves t = AwaitFirst \/ ready (leaves t) ->
  sum t = [] ->
  ready (leaves (send_leaf t (Some c))) /\ sum (send_leaf t (Some c)) = [].
Proof.
  intros Hlv Hq. unfold send_leaf, recv.
  destruct (processLevel_value Hpos (leaves t) (Some c) 0 (digest t) Hlv eq_refl)
    as [Hr Hn].
  destruct (processLevel (leaves t) (Some c) 0 (digest t)) as [[lv d] f].
  cbn in *. split; [assumption|].
  rewrite Hq. destruct f; [reflexivity | discriminate].
Qed.

Lemma send_all_ready `{HOk : !HashOk H} (Hpos : 0 < hsize) cs :
  forall t,
    leaves t = AwaitFirst \/ ready (leaves t) ->
    sum t = [] ->
    cs <> [] ->
    ready (leaves (send_all t cs)) /\ sum (send_all t cs) = [].
Proof.
  induction cs as [|c cs IH]; intros t Hlv Hq Hne; [congruence|].
  cbn [send_all fold_left]. fold (send_all (send_leaf t (Some c)) cs).
  destruct (send_leaf_ready Hpos t c Hlv Hq) as [Hr Hq'].
  destruct cs as [|c' cs]; [now split|].
  apply IH; [now right | assumption | discriminate].
Qed.

Lemma Sum_ready `{HOk : !HashOk H} (Hpos : 0 < hsize) t b :
  ready (leaves t) -> sum t = [] -> exists t' r, Sum t b = Ret (t', r).
Proof.
  intros Hr Hq. unfold Sum, send_leaf, recv.
  destruct (processLevel_nil Hpos (leaves t) 0 (digest t) Hr) as [_ Hn].
  destruct (processLevel (leaves t) None 0 (digest t)) as [[lv d] f].
  cbn in *. rewrite Hq. destruct f as [|r f]; [discriminate|].
  cbn. eauto.
Qed.

End Facts.

(** ** The checksum keeps the contract of hash.Hash *)

Lemma fletcher16_ok : HashOk fletcher16.
Proof.
  intros d. cbn. unfold fletcher.
  now destruct (fold_left _ d (0%N, 0%N)).
Qed.

(** ** The [Write] of tree/tree.go

    With a record pending, the earlier [Write] hands the first bytes of [p]
    to level 0 twice: 0a | 0b 0c 0d gives the leaves 0a0b and 0b0c where
    thex.go gives 0a0b and 0c0d. *)
Lemma TreeGo_Write_reads_again :
  let t1 := mkTree [x07] 2 (Some [x0a]) AwaitFirst [] in
  let p := Some [x0b; x0c; x0d] in
  ('(t, _) <- TreeGo.Write (H := fletcher16) t1 p ;;
   omap snd (Sum (H := fletcher16) t None)) =
    Ret (Hash (H := fletcher16) ([x01] ++ [x0a; x0b] ++ [x0b; x0c])) /\
  ('(t, _) <- Write (H := fletcher16) t1 p ;;
   omap snd (Sum (H := fletcher16) t None)) =
    Ret (Hash (H := fletcher16) ([x01] ++ [x0a; x0b] ++ [x0c; x0d])) /\
  Hash (H := fletcher16) ([x01] ++ [x0a; x0b] ++ [x0b; x0c]) <>
  Hash (H := fletcher16) ([x01] ++ [x0a; x0b] ++ [x0c; x0d]).
Proof.
  repeat split. vm_compute. discriminate.
Qed.

(** An input shorter than what the overflow lacks is sliced past its
    length. *)
Lemma TreeGo_Write_short_input :
  TreeGo.Write (H := fletcher16)
    (mkTree [x07] 4 (Some [x0a]) AwaitFirst []) (Some [x0b]) = Panic.
Proof. reflexivity. Qed.

(** With less than one record written, [Sum] does not return: level 0
    takes the nil as its first value. *)
Lemma Sum_blocks_without_leaf {H : HashAlg}
  (d : hash_state) (segs : list slice) (b : slice) :
  1 <= hsize ->
  Z.of_nat (length (flatten segs)) < hsize ->
  (t <- New d ;; root_of t segs b) = Blocks.
Proof.
  intros Hs Hlen.
  destruct (New_spec d) as [[_ E]|[Hneg _]]; [rewrite E | lia].
  cbn [bind].
  rewrite root_of_spec by (split; cbn; lia).
  cbn [size overflow bytes_of].
  rewrite frame_short by (cbn [length]; lia).
  reflexivity.
Qed.

(** * The claims *)

(** C1 fails on the code.  Size() = 2 and [buf] = 0a 0b 0c: the calls
    [Write(buf[1:3])], [Write(buf[0:1])], [Write([0d])] hand over the bytes
    0b 0c 0a 0d.  The third call completes the pending record with
    [append(t.overflow, p[:i]...)]; the overflow is [buf[0:1]] with capacity
    3, so 0d is written into [buf[1]], which is the first byte of the leaf
    0b 0c that level 0 holds.  [Sum] returns the hash of 01 0d 0c 0a 0d,
    where one [Write] of 0b 0c 0a 0d gives the hash of 01 0b 0c 0a 0d. *)
Lemma split_write_overwrites_leaf (growth : nat -> nat) :
  let m := [[x0a; x0b; x0c]; [x0d]] in
  let segs := [Some (Heap.mkWindow 0 1 2 2); Some (Heap.mkWindow 0 0 1 3);
               Some (Heap.mkWindow 1 0 1 1)] in
  let m1 := [[x0b; x0c; x0a; x0d]] in
  let whole := [Some (Heap.mkWindow 0 0 4 4)] in
  concat (map (Heap.read m) segs) = concat (map (Heap.read m1) whole) /\
  omap snd (Heap.root_of (H := fletcher16) growth m [x07] segs) =
    Ret (fletcher [x01; x0d; x0c; x0a; x0d]) /\
  omap snd (Heap.root_of (H := fletcher16) growth m1 [x07] whole) =
    Ret (fletcher [x01; x0b; x0c; x0a; x0d]) /\
  fletcher [x01; x0d; x0c; x0a; x0d] <> fletcher [x01; x0b; x0c; x0a; x0d] /\
  omap (fun r => nth 0 (fst r) [])
    (Heap.root_of (H := fletcher16) growth m [x07] segs) =
    Ret [x0a; x0d; x0c].
Proof.
  cbv zeta. split; [reflexivity|]. split; [reflexivity|].
  split; [reflexivity|]. split; [|reflexivity].
  vm_compute. discriminate.
Qed.

(** C2.  The combination rule: the locked block resets the shared digest
    object, writes the prefix byte 1, the left value and the right value,
    and finalizes, so that the parent is the hash of those bytes in that
    order whatever the digest object held before; the left value of a level
    is the value that arrived earlier, and each parent a level produces
    (the first one, handed to the level it spawns, and every later one) is
    that hash of its left value and of the value arriving next. *)
Theorem parent_is_prefixed_hash {H : HashAlg}
  (d : hash_state) (l : slice) (r : list byte) (e : level) :
  let m := [x01] ++ bytes_of l ++ r in
  combine d l (Some r) = (digest_Sum m None, m) /\
  recv AwaitFirst l d = (First l, d, []) /\
  recv (First l) (Some r) d = (Pairing (First (digest_Sum m None)), m, []) /\
  recv (Pairing e) l d =
    (if is_nil l then under_pairing (recv e None d)
     else (PairingRight l e, d, [])) /\
  recv (PairingRight l e) (Some r) d =
    under_pairing (recv e (digest_Sum m None) m).
Proof.
  intros m.
  split; [apply combine_eq|].
  split; [apply recv_AwaitFirst|].
  split; [now rewrite recv_First_value, combine_eq|].
  split; [destruct l; [apply recv_Pairing_value | apply recv_Pairing_nil]|].
  now rewrite recv_PairingRight_value, combine_eq.
Qed.

(** C3.  Odd leaf count: for leaves [a], [b], [c] written in that order,
    in [Write] calls that each end on a leaf boundary (one call for all
    three, one call per leaf, empty calls in between), [Sum] returns
    [Hash(prefix || Hash(prefix || a || b) || c)]: [c] goes up unchanged and
    is paired one level higher. *)
Theorem three_leaves_root {H : HashAlg}
  (d : hash_state) (a b c : list byte) (segs : list slice) (arg : slice) :
  1 <= hsize ->
  Z.of_nat (length a) = hsize ->
  Z.of_nat (length b) = hsize ->
  Z.of_nat (length c) = hsize ->
  Forall whole_leaves segs ->
  flatten segs = a ++ b ++ c ->
  (t <- New d ;; root_of t segs arg) =
  Ret (Hash ([x01] ++ bytes_of (Hash ([x01] ++ a ++ b)) ++ c)).
Proof.
  intros Hs Ha Hb Hc _ Hsegs.
  destruct (New_spec d) as [[_ E]|[Hneg _]]; [rewrite E | lia].
  cbn [bind].
  rewrite root_of_spec by (split; cbn; lia).
  cbn [size overflow bytes_of]. rewrite Hsegs.
  replace (a ++ b ++ c) with (concat [a; b; c])
    by (cbn [concat]; now rewrite app_nil_r).
  rewrite frame_concat by (try lia; repeat constructor; lia).
  cbn [fst send_all fold_left].
  unfold Sum, send_leaf. cbn [leaves digest size overflow sum].
  rewrite recv_AwaitFirst. cbn [leaves digest size overflow sum app].
  rewrite recv_First_value, combine_eq, recv_AwaitFirst.
  cbn [under_pairing leaves digest size overflow sum app].
  rewrite recv_Pairing_value. cbn [leaves digest size overflow sum app].
  rewrite recv_PairingRight_nil, recv_First_value, combine_eq, recv_AwaitFirst.
  cbn [under_pairing]. rewrite recv_Pairing_nil, recv_First_nil.
  reflexivity.
Qed.

Lemma three_leaves_root_witness :
  (t <- New (H := fletcher16) [x07] ;;
   root_of (H := fletcher16) t
     [Some [x0a; x0b]; None; Some [x0c; x0d; x0e; x0f]] (Some [x09])) =
  Ret (Hash (H := fletcher16)
         ([x01] ++ bytes_of (Hash (H := fletcher16) ([x01] ++ [x0a; x0b] ++ [x0c; x0d]))
            ++ [x0e; x0f])).
Proof.
  apply (three_leaves_root (H := fletcher16) [x07] [x0a; x0b] [x0c; x0d] [x0e; x0f]);
    [cbn; lia | reflexivity | reflexivity | reflexivity
    | repeat constructor | reflexivity].
Defined.



(** C5 fails on tree/tree.go.  Size() = 4, one byte 0a pending, and
    [p] = [buf[0:1]] of [buf] = 0b 0c 0d 0e: the [Write] of tree/tree.go
    (either revision) takes [p[:3]], which reaches past [len(p)], and hands
    the leaf 0a 0b 0c 0d to level 0; then it keeps [p] as the overflow.  The
    [Write] of thex.go appends 0b to the overflow and hands over nothing. *)
Lemma TreeGo_short_write_emits (growth : nat -> nat) (later : bool) :
  let m := [[x0a]; [x0b; x0c; x0d; x0e]] in
  let a := Some (Heap.mkWindow 0 0 1 1) in
  let p := Some (Heap.mkWindow 1 0 1 4) in
  let seen := fun r : Heap.memory * Heap.tree * (Z * error) =>
    let '(m, t, n) := r in
    (Heap.held m (Heap.leaves t), Heap.read m (Heap.overflow t), n) in
  ('(m, t) <- Heap.New (H := fletcher32) m [x07] ;;
   '(m, t, _) <- Heap.TreeGo_Write (H := fletcher32) growth later m t a ;;
   omap seen (Heap.TreeGo_Write (H := fletcher32) growth later m t p)) =
    Ret ([[x0a; x0b; x0c; x0d]], [x0b], (1, None)) /\
  ('(m, t) <- Heap.New (H := fletcher32) m [x07] ;;
   '(m, t, _) <- Heap.Write (H := fletcher32) growth m t a ;;
   omap seen (Heap.Write (H := fletcher32) growth m t p)) =
    Ret ([], [x0a; x0b], (1, None)).
Proof.
  cbv zeta. destruct later; split; reflexivity.
Qed.

(** C6, as the code has it.  [Sum] returns a value as soon as the bytes
    written make up at least one complete leaf, however they were split
    into [Write] calls. *)
Theorem Sum_returns {H : HashAlg} {HOk : HashOk H}
  (d : hash_state) (segs : list slice) (arg : slice) :
  1 <= hsize ->
  hsize <= Z.of_nat (length (flatten segs)) ->
  exists r, (t <- New d ;; root_of t segs arg) = Ret r.
Proof.
  intros Hs Hlen.
  destruct (New_spec d) as [[_ E]|[Hneg _]]; [rewrite E | lia].
  cbn [bind].
  rewrite root_of_spec by (split; cbn; lia).
  cbn [size overflow bytes_of].
  rewrite (frame_chunk (Z.to_nat hsize) (flatten segs) [])
    by (cbn [length]; lia).
  destruct (frame (Z.to_nat hsize) [] _) as [cs r]. cbn [fst].
  assert (Hpos : 0 < hsize) by lia.
  match goal with
  | |- context [send_all ?t0 (?c :: cs)] =>
      destruct (send_all_ready Hpos (c :: cs) t0 (or_introl eq_refl) eq_refl
                  ltac:(discriminate)) as [Hr Hq]
  end.
  destruct (Sum_ready Hpos _ arg Hr Hq) as (t' & x & ->).
  now exists x.
Qed.

Lemma Sum_returns_witness :
  exists r,
    (t <- New (H := fletcher16) [x07] ;;
     root_of (H := fletcher16) t [Some [x0a]; Some [x0b; x0c]] None) = Ret r.
Proof.
  apply (Sum_returns (H := fletcher16) (HOk := fletcher16_ok));
    [cbn; lia | cbn; lia].
Defined.

(** C6, as the claim has it, fails: with no leaf written, [Sum] hands nil
    to level 0, which takes it as its first value and waits for the next;
    nothing is ever sent on [sum]. *)
Lemma Sum_without_leaf_blocks :
  (t <- New (H := fletcher16) [] ;; root_of (H := fletcher16) t [] None) = Blocks /\
  ~ exists r,
      (t <- New (H := fletcher16) [] ;; root_of (H := fletcher16) t [] None) = Ret r.
Proof.
  split; [reflexivity|]. intros [r Hr]. discriminate Hr.
Qed.

(** C7 fails on tree/tree.go.  Size() = 4, one byte 0a pending, and [p]
    one byte with no spare capacity: the [Write] of tree/tree.go (either
    revision) takes [p[:3]] and panics (slice bounds out of range), where
    the [Write] of thex.go returns [(1, nil)]. *)
Lemma TreeGo_short_write_panics (growth : nat -> nat) (later : bool) :
  let m := [[x0a]; [x0b]] in
  let a := Some (Heap.mkWindow 0 0 1 1) in
  let p := Some (Heap.mkWindow 1 0 1 1) in
  ('(m, t) <- Heap.New (H := fletcher32) m [x07] ;;
   '(m, t, _) <- Heap.TreeGo_Write (H := fletcher32) growth later m t a ;;
   omap snd (Heap.TreeGo_Write (H := fletcher32) growth later m t p)) = Panic /\
  ('(m, t) <- Heap.New (H := fletcher32) m [x07] ;;
   '(m, t, _) <- Heap.Write (H := fletcher32) growth m t a ;;
   omap snd (Heap.Write (H := fletcher32) growth m t p)) = Ret (1, None).
Proof.
  cbv zeta. destruct later; split; reflexivity.
Qed.





(** C9.  The overflow buffer: on every tree a program can hold it has
    between 0 and [size - 1] bytes; when a [Write] completes the pending
    record, the record goes to level 0 and the overflow is set to nil
    before anything else is done; and [Reset] leaves an empty overflow. *)
Theorem overflow_bounds {H : HashAlg} (t : tree) :
  reachable t ->
  0 <= len (overflow t) <= size t - 1 /\
  (forall p,
      0 < len (overflow t) ->
      size t - len (overflow t) <= len p ->
      exists leaf,
        bytes_of leaf =
          bytes_of (overflow t) ++
          firstn (Z.to_nat (size t - len (overflow t))) (bytes_of p) /\
        fill_overflow t p =
          Ret (set_overflow (send_leaf t leaf) None,
               size t - len (overflow t))) /\
  (exists t', Reset t = Ret t' /\ overflow t' = Some []).
Proof.
  intros Hr. destruct (reachable_wf t Hr) as [Hs Ho].
  split; [unfold len in *; lia|]. split.
  - intros p Hov Hfull. unfold fill_overflow.
    destruct (Z.ltb_spec 0 (len (overflow t))) as [_|]; [|lia].
    destruct (Z.gtb_spec (size t - len (overflow t)) (len p)) as [|_]; [lia|].
    destruct p as [l|]; [|unfold len in *; cbn [bytes_of length] in *; lia].
    unfold len in *. cbn [bytes_of] in *.
    remember (Z.to_nat (size t - Z.of_nat (length (bytes_of (overflow t))))) as i.
    replace (size t - Z.of_nat (length (bytes_of (overflow t))))
      with (Z.of_nat i) by lia.
    change 0 with (Z.of_nat 0) at 1.
    rewrite reslice_Some by lia. cbn [bind skipn]. rewrite Nat.sub_0_r.
    eexists. split; [|reflexivity].
    unfold append. cbn [bytes_of].
    destruct (overflow t) as [ov|]; cbn [bytes_of length] in *; [|lia].
    now destruct (firstn i l).
  - destruct (Reset_spec t) as [[_ E]|[Hneg _]]; [|lia].
    eexists. split; [exact E | reflexivity].
Qed.

Lemma overflow_bounds_witness :
  let t := mkTree [x07] 2 (Some [x0a]) AwaitFirst [] in
  0 <= len (overflow t) <= size t - 1 /\
  (forall p,
      0 < len (overflow t) ->
      size t - len (overflow t) <= len p ->
      exists leaf,
        bytes_of leaf =
          bytes_of (overflow t) ++
          firstn (Z.to_nat (size t - len (overflow t))) (bytes_of p) /\
        fill_overflow (H := fletcher16) t p =
          Ret (set_overflow (send_leaf (H := fletcher16) t leaf) None,
               size t - len (overflow t))) /\
  (exists t', Reset t = Ret t' /\ overflow t' = Some []).
Proof.
  apply (overflow_bounds (H := fletcher16)).
  apply (reach_Write (H := fletcher16)
           (mkTree [x07] 2 (Some []) AwaitFirst []) (Some [x0a]) _ (1, None)).
  - apply (reach_New (H := fletcher16) [x07]). reflexivity.
  - reflexivity.
Defined.

Lemma len_append (s t : slice) : len (append s t) = len s + len t.
Proof.
  unfold append, len.
  destruct s as [l|], (bytes_of t) as [|y ys] eqn:E; cbn [bytes_of];
    rewrite ?length_app; cbn [length]; lia.
Qed.

(** C10.  [Sum] does not look at its argument: [Sum(b)] is [Sum(nil)], the
    root alone, and for a non-empty [b] it is not [b] with the root
    appended, as the convention of hash.Hash would have it. *)
Theorem Sum_ignores_argument {H : HashAlg} (t : tree) (b : slice) :
  Sum t b = Sum t None /\
  (forall t' r, Sum t b = Ret (t', r) -> 0 < len b -> r <> append b r).
Proof.
  split; [reflexivity|].
  intros t' r _ Hb E.
  pose proof (len_append b r) as Hl. rewrite <- E in Hl. lia.
Qed.

Lemma Sum_ignores_argument_witness :
  let t := mkTree [x07] 2 (Some []) (First (Some [x0a; x0b])) [] in
  Sum (H := fletcher16) t (Some [x09]) = Sum (H := fletcher16) t None /\
  Some [x0a; x0b] <> append (Some [x09]) (Some [x0a; x0b]).
Proof.
  intros t.
  destruct (Sum_ignores_argument (H := fletcher16) t (Some [x09])) as [E Hne].
  split; [exact E|].
  apply (Hne (mkTree [x07] 2 (Some []) (First (Some [x0a; x0b])) []));
    [reflexivity | cbn; lia].
Defined.

(** * Further properties *)

(** ** The tree computed level by level *)

Section TreeFacts.
Context {H : HashAlg}.

Lemma pair_ind (P : list slice -> Prop) :
  P [] ->
  (forall a, P [a]) ->
  (forall a b rest, P rest -> P (a :: b :: rest)) ->
  forall xs, P xs.
Proof.
  intros H0 H1 H2.
  fix IH 1. intros [|a [|b rest]]; [exact H0 | apply H1 | apply H2, IH].
Qed.

Lemma pairs_length (xs : list slice) :
  (2 * length (pairs xs) <= length xs + 1)%nat.
Proof.
  induction xs as [|a|a b rest IH] using pair_ind; cbn [pairs length]; lia.
Qed.

Lemma reduce_fuel (f1 : nat) :
  forall f2 xs,
    (length xs <= f1)%nat -> (length xs <= f2)%nat ->
    reduce f1 xs = reduce f2 xs.
Proof.
  induction f1 as [|f1 IH]; intros f2 xs H1 H2;
    destruct xs as [|a [|b rest]]; destruct f2 as [|f2]; try reflexivity;
    cbn [length] in *; try lia.
  cbn [reduce].
  pose proof (pairs_length (a :: b :: rest)) as Hp. cbn [length] in Hp.
  apply IH; lia.
Qed.

Lemma merkle_root_pairs (xs : list slice) :
  (2 <= length xs)%nat -> merkle_root xs = merkle_root (pairs xs).
Proof.
  intros Hlen. unfold merkle_root.
  destruct xs as [|a [|b rest]]; cbn [length] in *; try lia.
  change (reduce (S (S (length rest))) (a :: b :: rest))
    with (reduce (S (length rest)) (pairs (a :: b :: rest))).
  pose proof (pairs_length (a :: b :: rest)) as Hp. cbn [length] in Hp.
  apply reduce_fuel; lia.
Qed.

Lemma pairs_flat (ps : list (slice * slice)) : pairs (flat ps) = parents ps.
Proof.
  induction ps as [|[a b] ps IH]; [reflexivity|].
  unfold flat, parents in *. cbn [map concat app pairs fst snd]. now rewrite IH.
Qed.

Lemma pairs_flat_one (ps : list (slice * slice)) (x : slice) :
  pairs (flat ps ++ [x]) = parents ps ++ [x].
Proof.
  induction ps as [|[a b] ps IH]; [reflexivity|].
  unfold flat, parents in *. cbn [map concat app pairs fst snd]. now rewrite IH.
Qed.

Lemma flat_snoc (ps : list (slice * slice)) (a b : slice) :
  flat (ps ++ [(a, b)]) = (flat ps ++ [a]) ++ [b].
Proof.
  unfold flat. rewrite map_app, concat_app. cbn [map concat fst snd app].
  now rewrite <- app_assoc.
Qed.

Lemma parents_snoc (ps : list (slice * slice)) (a b : slice) :
  parents (ps ++ [(a, b)]) = parents ps ++ [parent a b].
Proof. unfold parents. now rewrite map_app. Qed.

Lemma length_flat (ps : list (slice * slice)) :
  length (flat ps) = (2 * length ps)%nat.
Proof.
  induction ps as [|[a b] ps IH]; [reflexivity|].
  unfold flat in *. cbn [map concat app length fst snd]. rewrite IH. lia.
Qed.

Lemma flat_not_nil (ps : list (slice * slice)) : ps <> [] -> flat ps <> [].
Proof. destruct ps as [|[a b] ps]; [congruence | discriminate]. Qed.

Context {HOk : HashOk H} (Hpos : 0 < hsize).

(** One more value at a level. *)
Lemma holds_recv (lv : level) (xs : list slice) :
  holds lv xs ->
  forall v d,
    is_nil v = false ->
    holds (fst (fst (recv lv v d))) (xs ++ [v]) /\ snd (recv lv v d) = [].
Proof.
  induction 1 as [|x|e ps Hps He IH|x e ps Hps Hx He IH]; intros v d Hv.
  - rewrite recv_AwaitFirst. cbn. split; [constructor | reflexivity].
  - destruct v as [r|]; [|discriminate].
    rewrite recv_First_value, combine_eq, recv_AwaitFirst. cbn [under_pairing fst snd].
    split; [|reflexivity].
    apply (holds_Pairing _ [(x, Some r)]); [discriminate|]. constructor.
  - destruct v as [r|]; [|discriminate].
    rewrite recv_Pairing_value. cbn [fst snd].
    split; [|reflexivity]. now constructor.
  - destruct v as [r|]; [|discriminate].
    rewrite recv_PairingRight_value, combine_eq.
    destruct (IH (parent x (Some r)) ([x01] ++ bytes_of x ++ bytes_of (Some r))
                (parent_not_nil x (Some r) Hpos)) as [Hh Hf].
    destruct (recv e (parent x (Some r)) _) as [[e' d'] f].
    cbn [under_pairing fst snd] in *. split; [|assumption].
    rewrite <- flat_snoc. apply holds_Pairing.
    + now destruct ps.
    + now rewrite parents_snoc.
Qed.

(** A value and then nils: each nil brings the root of what the level has
    received. *)
Lemma finals_value (lv : level) (xs : list slice) :
  holds lv xs ->
  forall v k d,
    is_nil v = false ->
    snd (processLevel lv v (S k) d) = repeat (merkle_root (xs ++ [v])) (S k).
Proof.
  induction 1 as [|x|e ps Hps He IH|x e ps Hps Hx He IH]; intros v k d Hv;
    cbn [processLevel]; rewrite ?Hv.
  - reflexivity.
  - rewrite combine_eq. unfold fresh. cbn [snd app]. reflexivity.
  - specialize (IH v k d Hv).
    destruct (processLevel e v (S k) d) as [[e' d'] f]. cbn [snd] in *.
    rewrite IH, (merkle_root_pairs (flat ps ++ [v])), pairs_flat_one;
      [reflexivity|].
    rewrite length_app, length_flat. destruct ps; [congruence | cbn [length]; lia].
  - rewrite combine_eq.
    specialize (IH (parent x v) k ([x01] ++ bytes_of x ++ bytes_of v)
                  (parent_not_nil x v Hpos)).
    destruct (processLevel e (parent x v) (S k) _) as [[e' d'] f]. cbn [snd] in *.
    rewrite IH, <- flat_snoc, <- parents_snoc, <- pairs_flat.
    symmetry. f_equal. apply merkle_root_pairs.
    rewrite length_flat, length_app. cbn [length]. lia.
Qed.

(** Nils at a level that has received something. *)
Lemma finals_nil (lv : level) (xs : list slice) :
  holds lv xs ->
  xs <> [] ->
  forall k d,
    snd (processLevel lv None k d) = repeat (merkle_root xs) (S k).
Proof.
  induction 1 as [|x|e ps Hps He IH|x e ps Hps Hx He IH]; intros Hne k d;
    cbn [processLevel is_nil].
  - congruence.
  - reflexivity.
  - assert (Hpar : parents ps <> []) by (destruct ps; [congruence | discriminate]).
    specialize (IH Hpar k d).
    destruct (processLevel e None k d) as [[e' d'] f]. cbn [snd] in *.
    rewrite IH, <- pairs_flat. symmetry. f_equal. apply merkle_root_pairs.
    rewrite length_flat. destruct ps; [congruence | cbn [length]; lia].
  - pose proof (finals_value e (parents ps) He x k d Hx) as Hf.
    destruct (processLevel e x (S k) d) as [[e' d'] f]. cbn [snd] in *.
    rewrite Hf, <- pairs_flat_one. symmetry. f_equal. apply merkle_root_pairs.
    rewrite length_app, length_flat. destruct ps; [congruence | cbn [length]; lia].
Qed.

End TreeFacts.

Section TreeRuns.
Context {H : HashAlg}.

Lemma frame_records (sz : nat) (ls : list (list byte)) (tail : list byte) :
  (0 < sz)%nat ->
  Forall (fun l => length l = sz) ls ->
  (length tail < sz)%nat ->
  frame sz [] (concat ls ++ tail) = (ls, tail).
Proof.
  intros Hsz Hls Htail.
  rewrite frame_app, frame_concat by assumption.
  rewrite frame_short by (cbn [length]; lia).
  cbn [app]. now rewrite app_nil_r.
Qed.

Lemma holds_levels (lv : level) (xs : list slice) :
  holds lv xs -> xs <> [] -> levels lv = S (Nat.log2 (length xs)).
Proof.
  induction 1 as [|x|e ps Hps He IH|x e ps Hps Hx He IH]; intros Hne;
    cbn [levels].
  - congruence.
  - reflexivity.
  - rewrite IH by (destruct ps; [congruence | discriminate]).
    unfold parents. rewrite length_map, length_flat.
    rewrite Nat.log2_double; [reflexivity|].
    destruct ps; [congruence | cbn [length]; lia].
  - rewrite IH by (destruct ps; [congruence | discriminate]).
    unfold parents. rewrite length_map, length_app, length_flat. cbn [length].
    rewrite Nat.log2_succ_double; [reflexivity|].
    destruct ps; [congruence | cbn [length]; lia].
Qed.

Context {HOk : HashOk H} (Hpos : 0 < hsize).

Lemma holds_send_all (cs : list (list byte)) :
  forall t xs,
    holds (leaves t) xs ->
    sum t = [] ->
    holds (leaves (send_all t cs)) (xs ++ map Some cs) /\
    sum (send_all t cs) = [].
Proof.
  induction cs as [|c cs IH]; intros t xs Hh Hq.
  - cbn. now rewrite app_nil_r.
  - cbn [send_all fold_left map]. fold (send_all (send_leaf t (Some c)) cs).
    destruct (holds_recv Hpos (leaves t) xs Hh (Some c) (digest t) eq_refl)
      as [Hh' Hf].
    replace (xs ++ Some c :: map Some cs) with ((xs ++ [Some c]) ++ map Some cs)
      by now rewrite <- app_assoc.
    apply IH.
    + unfold send_leaf.
      destruct (recv (leaves t) (Some c) (digest t)) as [[lv d'] f].
      assumption.
    + unfold send_leaf.
      destruct (recv (leaves t) (Some c) (digest t)) as [[lv d'] f].
      cbn [sum snd] in *. now rewrite Hq, Hf.
Qed.

(** After [New] and the writes of [segs]. *)
Lemma holds_after_Writes
  (d : hash_state) (ls : list (list byte)) (tail : list byte)
  (segs : list slice) :
  Forall (fun l => Z.of_nat (length l) = hsize) ls ->
  Z.of_nat (length tail) < hsize ->
  flatten segs = concat ls ++ tail ->
  exists t,
    (t0 <- New d ;; Writes t0 segs) = Ret t /\
    holds (leaves t) (map Some ls) /\ sum t = [] /\
    bytes_of (overflow t) = tail /\ size t = hsize.
Proof.
  intros Hls Htail Hsegs.
  destruct (New_spec d) as [[_ E]|[Hneg _]]; [rewrite E | lia].
  cbn [bind].
  set (t0 := mkTree d hsize (Some []) AwaitFirst []).
  destruct (Writes_spec segs t0) as (o & Ho & Hw); [split; cbn; lia|].
  rewrite Hw. cbn [size overflow bytes_of t0] in *.
  rewrite Hsegs, frame_records in *; try lia;
    try (eapply Forall_impl; [|exact Hls]; cbn; intros; lia).
  cbn [fst snd] in *.
  eexists. split; [reflexivity|].
  destruct (holds_send_all ls t0 [] holds_AwaitFirst eq_refl) as [Hh Hq].
  cbn [leaves sum set_overflow overflow size app] in *.
  rewrite size_send_all. now repeat split.
Qed.

End TreeRuns.

(** ** Further properties of the pipeline *)

(** X1.  The streaming pipeline computes the hash tree level by level:
    for one or more complete leaves [ls] followed by an incomplete record
    [tail], written in [Write] calls of which all but the last end on a
    leaf boundary, [Sum] returns the root obtained by pairing neighbours at
    each level, an odd last value going up unchanged. *)
Theorem root_is_merkle_root {H : HashAlg} {HOk : HashOk H}
  (d : hash_state) (ls : list (list byte)) (tail : list byte)
  (segs : list slice) (b : slice) :
  ls <> [] ->
  Forall (fun l => Z.of_nat (length l) = hsize) ls ->
  Z.of_nat (length tail) < hsize ->
  Forall whole_leaves (removelast segs) ->
  flatten segs = concat ls ++ tail ->
  (t <- New d ;; root_of t segs b) = Ret (merkle_root (map Some ls)).
Proof.
  intros Hne Hls Htail _ Hsegs.
  assert (Hpos : 0 < hsize) by lia.
  destruct (holds_after_Writes Hpos d ls tail segs Hls Htail Hsegs)
    as (t & E & Hh & Hq & _).
  destruct (New d) as [t0| | |]; try discriminate.
  cbn [bind] in *. unfold root_of. rewrite E. cbn [bind].
  unfold Sum, send_leaf, recv.
  pose proof (finals_nil Hpos (leaves t) (map Some ls) Hh
                ltac:(destruct ls; [congruence | discriminate]) 0%nat (digest t))
    as Hf.
  destruct (processLevel (leaves t) None 0 (digest t)) as [[lv d'] f].
  cbn [snd sum] in *. rewrite Hq, Hf. reflexivity.
Qed.

Lemma root_is_merkle_root_witness :
  (t <- New (H := fletcher16) [x07] ;;
   root_of (H := fletcher16) t
     [Some [x0a; x0b]; None; Some [x0c; x0d; x0e; x0f; x10; x11];
      Some [x12; x13; x14]] None) =
  Ret (merkle_root (H := fletcher16)
         (map Some [[x0a; x0b]; [x0c; x0d]; [x0e; x0f]; [x10; x11]; [x12; x13]])).
Proof.
  apply (root_is_merkle_root (H := fletcher16) (HOk := fletcher16_ok) [x07]
           [[x0a; x0b]; [x0c; x0d]; [x0e; x0f]; [x10; x11]; [x12; x13]] [x14]);
    [discriminate | repeat constructor | cbn; lia | repeat constructor
    | reflexivity].
Defined.

(** X2.  The goroutines: after [n >= 1] complete leaves have been written
    to a new tree, the pipeline has [log2 n + 1] levels. *)
Theorem levels_after_Writes {H : HashAlg} {HOk : HashOk H}
  (d : hash_state) (ls : list (list byte)) (tail : list byte)
  (segs : list slice) :
  ls <> [] ->
  Forall (fun l => Z.of_nat (length l) = hsize) ls ->
  Z.of_nat (length tail) < hsize ->
  flatten segs = concat ls ++ tail ->
  exists t,
    (t0 <- New d ;; Writes t0 segs) = Ret t /\
    levels (leaves t) = S (Nat.log2 (length ls)).
Proof.
  intros Hne Hls Htail Hsegs.
  assert (Hpos : 0 < hsize) by lia.
  destruct (holds_after_Writes Hpos d ls tail segs Hls Htail Hsegs)
    as (t & E & Hh & _).
  exists t. split; [assumption|].
  rewrite (holds_levels _ _ Hh) by (destruct ls; [congruence | discriminate]).
  now rewrite length_map.
Qed.

Lemma levels_after_Writes_witness :
  exists t,
    (t0 <- New (H := fletcher16) [x07] ;;
     Writes (H := fletcher16) t0
       [Some [x0a; x0b; x0c]; Some [x0d; x0e; x0f; x10; x11; x12];
        Some [x13; x14]]) = Ret t /\
    levels (leaves t) = 3%nat.
Proof.
  apply (levels_after_Writes (H := fletcher16) (HOk := fletcher16_ok) [x07]
           [[x0a; x0b]; [x0c; x0d]; [x0e; x0f]; [x10; x11]; [x12; x13]] [x14]);
    [discriminate | repeat constructor | cbn; lia | reflexivity].
Defined.

Section Quiet.
Context {H : HashAlg} {HOk : HashOk H}.

Lemma send_all_quiet (Hpos : 0 < hsize) cs t :
  sum t = [] ->
  leaves t = AwaitFirst \/ ready (leaves t) ->
  sum (send_all t cs) = [] /\
  (leaves (send_all t cs) = AwaitFirst \/ ready (leaves (send_all t cs))).
Proof.
  intros Hq Hlv. destruct cs as [|c cs]; [now split|].
  destruct (send_all_ready Hpos (c :: cs) t Hlv Hq ltac:(discriminate)) as [Hr Hq'].
  split; [assumption | now right].
Qed.

Lemma reachable_quiet (t : tree) :
  reachable t ->
  sum t = [] /\ (leaves t = AwaitFirst \/ ready (leaves t)).
Proof.
  induction 1 as [d t HN | t p t' r Ht IH HW | t b t' r Ht IH HS | t t' _ IH HR].
  - destruct (New_spec d) as [[_ E]|[_ E]]; rewrite E in HN; [|discriminate].
    injection HN as <-. split; [reflexivity | now left].
  - pose proof (reachable_wf t Ht) as Hwf.
    pose proof (reachable_size t Ht) as Hs.
    destruct (Write_spec t p Hwf) as (o & _ & Hw).
    rewrite Hw in HW. injection HW as <- _.
    cbn [sum leaves set_overflow].
    destruct IH as [Hq Hlv]. apply send_all_quiet; try assumption.
    destruct Hwf. lia.
  - pose proof (reachable_wf t Ht) as Hwf.
    pose proof (reachable_size t Ht) as Hs.
    assert (Hpos : 0 < hsize) by (destruct Hwf; lia).
    destruct IH as [Hq [Hlv|Hlv]]; unfold Sum, send_leaf, recv in HS.
    + rewrite Hlv, Hq in HS. cbn in HS. discriminate.
    + destruct (processLevel_nil Hpos (leaves t) 0 (digest t) Hlv) as [Hr Hn].
      destruct (processLevel (leaves t) None 0 (digest t)) as [[lv d'] f].
      cbn [fst snd sum] in *. rewrite Hq in HS.
      destruct f as [|x [|y f]]; try discriminate.
      cbn [app] in HS. injection HS as <- _.
      split; [reflexivity | now right].
  - destruct (Reset_spec t) as [[_ E]|[_ E]]; rewrite E in HR; [|discriminate].
    injection HR as <-. split; [reflexivity | now left].
Qed.

Lemma drained_nil (lv : level) :
  drained lv ->
  forall k d, processLevel lv None k d = (lv, d, repeat (top lv) (S k)).
Proof.
  induction 1 as [l|e He IH]; intros k d; cbn [processLevel is_nil top].
  - reflexivity.
  - now rewrite IH.
Qed.

Lemma value_drains (Hpos : 0 < hsize) (lv : level) :
  forall v k d,
    lv = AwaitFirst \/ ready lv ->
    is_nil v = false ->
    drained (fst (fst (processLevel lv v (S k) d))) /\
    snd (processLevel lv v (S k) d) =
      repeat (top (fst (fst (processLevel lv v (S k) d)))) (S k).
Proof.
  induction lv as [|l|e IH|l e IH]; intros v k d Hlv Hv;
    cbn [processLevel]; rewrite ?Hv.
  - unfold fresh. cbn [fst snd top]. split; [constructor | reflexivity].
  - rewrite combine_eq. unfold fresh. cbn [fst snd top].
    split; [do 2 constructor | reflexivity].
  - assert (He : ready e)
      by (destruct Hlv as [|Hr]; [discriminate | now inversion Hr]).
    specialize (IH v k d (or_intror He) Hv).
    destruct (processLevel e v (S k) d) as [[e' d'] f]. cbn [fst snd top] in *.
    split; [constructor; tauto | tauto].
  - assert (He : ready e)
      by (destruct Hlv as [|Hr]; [discriminate | now inversion Hr]).
    rewrite combine_eq.
    specialize (IH (parent l v) k ([x01] ++ bytes_of l ++ bytes_of v)
                  (or_intror He) (parent_not_nil l v Hpos)).
    destruct (processLevel e (parent l v) (S k) _) as [[e' d'] f].
    cbn [fst snd top] in *. split; [constructor; tauto | tauto].
Qed.

Lemma nil_drains (Hpos : 0 < hsize) (lv : level) :
  forall k d,
    ready lv ->
    drained (fst (fst (processLevel lv None k d))) /\
    snd (processLevel lv None k d) =
      repeat (top (fst (fst (processLevel lv None k d)))) (S k).
Proof.
  induction lv as [|l|e IH|l e IH]; intros k d Hlv; cbn [processLevel is_nil].
  - inversion Hlv.
  - cbn [fst snd top]. split; [constructor | reflexivity].
  - inversion Hlv as [| ? He |]; subst.
    specialize (IH k d He).
    destruct (processLevel e None k d) as [[e' d'] f]. cbn [fst snd top] in *.
    split; [constructor; tauto | tauto].
  - inversion Hlv as [| | ? ? Hl He]; subst.
    destruct (value_drains Hpos e l k d (or_intror He) Hl) as [Hd Hf].
    destruct (processLevel e l (S k) d) as [[e' d'] f]. cbn [fst snd top] in *.
    split; [now constructor | assumption].
Qed.

End Quiet.

(** X3.  [Sum] can be called again: on a tree a program can hold, a second
    [Sum] right after a [Sum] that returned [r] returns [r] too and leaves
    the tree as the first one left it. *)
Theorem Sum_again {H : HashAlg} {HOk : HashOk H}
  (t t1 : tree) (b b' r : slice) :
  reachable t ->
  Sum t b = Ret (t1, r) ->
  Sum t1 b' = Ret (t1, r).
Proof.
  intros Ht HS.
  pose proof (reachable_wf t Ht) as Hwf.
  pose proof (reachable_size t Ht) as Hs.
  assert (Hpos : 0 < hsize) by (destruct Hwf; lia).
  destruct (reachable_quiet t Ht) as [Hq [Hlv|Hlv]];
    unfold Sum, send_leaf, recv in HS.
  - rewrite Hlv, Hq in HS. cbn in HS. discriminate.
  - destruct (nil_drains Hpos (leaves t) 0 (digest t) Hlv) as [Hd Hf].
    destruct (processLevel (leaves t) None 0 (digest t)) as [[lv d'] f].
    cbn [fst snd sum repeat] in *. subst f. rewrite Hq in HS.
    cbn [app] in HS. injection HS as <- <-.
    unfold Sum, send_leaf, recv. cbn [leaves digest sum size overflow].
    rewrite (drained_nil lv Hd). reflexivity.
Qed.

Section Solid.
Context {H : HashAlg} {HOk : HashOk H}.

Lemma solid_value (Hpos : 0 < hsize) (lv : level) :
  forall v k d,
    lv = AwaitFirst \/ solid lv ->
    is_nil v = false ->
    solid (fst (fst (processLevel lv v k d))).
Proof.
  induction lv as [|l|e IH|l e IH]; intros v k d Hlv Hv;
    cbn [processLevel]; rewrite ?Hv.
  - unfold fresh. cbn [fst]. now constructor.
  - rewrite combine_eq. unfold fresh. cbn [fst].
    do 2 constructor. now apply parent_not_nil.
  - assert (He : solid e)
      by (destruct Hlv as [|Hr]; [discriminate | now inversion Hr]).
    destruct k as [|k].
    + cbn [fst]. now constructor.
    + specialize (IH v (S k) d (or_intror He) Hv).
      destruct (processLevel e v (S k) d) as [[e' d'] f]. cbn [fst] in *.
      now constructor.
  - assert (He : solid e)
      by (destruct Hlv as [|Hr]; [discriminate | now inversion Hr]).
    rewrite combine_eq.
    specialize (IH (parent l v) k ([x01] ++ bytes_of l ++ bytes_of v)
                  (or_intror He) (parent_not_nil l v Hpos)).
    destruct (processLevel e (parent l v) k _) as [[e' d'] f]. cbn [fst] in *.
    now constructor.
Qed.

Lemma solid_nil (Hpos : 0 < hsize) (lv : level) :
  forall k d, solid lv -> solid (fst (fst (processLevel lv None k d))).
Proof.
  induction lv as [|l|e IH|l e IH]; intros k d Hlv; cbn [processLevel is_nil].
  - inversion Hlv.
  - assumption.
  - inversion Hlv as [| ? He |]; subst.
    specialize (IH k d He).
    destruct (processLevel e None k d) as [[e' d'] f]. cbn [fst] in *.
    now constructor.
  - inversion Hlv as [| | ? ? Hl He]; subst.
    pose proof (solid_value Hpos e l (S k) d (or_intror He) Hl) as Hs.
    destruct (processLevel e l (S k) d) as [[e' d'] f]. cbn [fst] in *.
    now constructor.
Qed.

Lemma solid_send_all (Hpos : 0 < hsize) (cs : list (list byte)) :
  forall t,
    leaves t = AwaitFirst \/ solid (leaves t) ->
    leaves (send_all t cs) = AwaitFirst \/ solid (leaves (send_all t cs)).
Proof.
  induction cs as [|c cs IH]; intros t Hlv; [assumption|].
  cbn [send_all fold_left]. fold (send_all (send_leaf t (Some c)) cs).
  apply IH. right.
  pose proof (solid_value Hpos (leaves t) (Some c) 0 (digest t) Hlv eq_refl) as Hs.
  unfold send_leaf, recv.
  destruct (processLevel (leaves t) (Some c) 0 (digest t)) as [[lv d'] f].
  assumption.
Qed.

Lemma reachable_solid (t : tree) :
  reachable t -> leaves t = AwaitFirst \/ solid (leaves t).
Proof.
  induction 1 as [d t HN | t p t' r Ht IH HW | t b t' r Ht IH HS | t t' _ IH HR].
  - destruct (New_spec d) as [[_ E]|[_ E]]; rewrite E in HN; [|discriminate].
    injection HN as <-. now left.
  - pose proof (reachable_wf t Ht) as Hwf.
    pose proof (reachable_size t Ht) as Hs.
    destruct (Write_spec t p Hwf) as (o & _ & Hw).
    rewrite Hw in HW. injection HW as <- _.
    cbn [leaves set_overflow]. apply solid_send_all; [destruct Hwf; lia | assumption].
  - pose proof (reachable_wf t Ht) as Hwf.
    pose proof (reachable_size t Ht) as Hs.
    assert (Hpos : 0 < hsize) by (destruct Hwf; lia).
    destruct (reachable_quiet t Ht) as [Hq _].
    unfold Sum, send_leaf, recv in HS.
    destruct IH as [Hlv|Hlv].
    + rewrite Hlv, Hq in HS. cbn in HS. discriminate.
    + pose proof (solid_nil Hpos (leaves t) 0 (digest t) Hlv) as Hsol.
      destruct (processLevel (leaves t) None 0 (digest t)) as [[lv d'] f].
      cbn [fst sum] in *.
      destruct (sum t ++ f) as [|x rest]; [discriminate|].
      injection HS as <- _. now right.
  - destruct (Reset_spec t) as [[_ E]|[_ E]]; rewrite E in HR; [|discriminate].
    injection HR as <-. now left.
Qed.

End Solid.

(** X4.  Nothing waits on the channel [sum] between calls, and no level
    holds nil: on every tree a program can hold, [sum] is empty ([Write]
    never makes a level send on [final], and a [Sum] that returns takes the
    only value sent), and level 0 either waits for its first value or the
    left value of every level of the pipeline is a real value. *)
Theorem sum_channel_empty {H : HashAlg} {HOk : HashOk H} (t : tree) :
  reachable t ->
  sum t = [] /\ (leaves t = AwaitFirst \/ solid (leaves t)).
Proof.
  intros Ht. split; [apply (reachable_quiet t Ht) | apply (reachable_solid t Ht)].
Qed.

Lemma Sum_again_witness :
  let t1 := mkTree [x01; x73; x2f; x0e; x0f] 2 (Some [x10])
              (Pairing (Pairing (First (Some [x8b; xc0])))) [] in
  Sum (H := fletcher16) t1 (Some [x09]) = Ret (t1, Some [x8b; xc0]).
Proof.
  apply (Sum_again (H := fletcher16) (HOk := fletcher16_ok)
           (mkTree [x01; x0a; x0b; x0c; x0d] 2 (Some [x10])
              (PairingRight (Some [x0e; x0f]) (First (Some [x73; x2f]))) [])
           _ None (Some [x09])).
  - apply (reach_Write (H := fletcher16)
             (mkTree [x07] 2 (Some []) AwaitFirst [])
             (Some [x0a; x0b; x0c; x0d; x0e; x0f; x10]) _ (7, None)).
    + apply (reach_New (H := fletcher16) [x07]). reflexivity.
    + reflexivity.
  - reflexivity.
Defined.

Lemma sum_channel_empty_witness :
  let t := mkTree [x01; x0a; x0b; x0c; x0d] 2 (Some [x10])
             (PairingRight (Some [x0e; x0f]) (First (Some [x73; x2f]))) [] in
  sum t = [] /\ (leaves t = AwaitFirst \/ solid (leaves t)).
Proof.
  apply (sum_channel_empty (H := fletcher16) (HOk := fletcher16_ok)).
  apply (reach_Write (H := fletcher16)
           (mkTree [x07] 2 (Some []) AwaitFirst [])
           (Some [x0a; x0b; x0c; x0d; x0e; x0f; x10]) _ (7, None)).
  - apply (reach_New (H := fletcher16) [x07]). reflexivity.
  - reflexivity.
Defined.

(** ** Further properties of the framer *)





(** X6.  An empty write does nothing: for a nil or empty [p], [Write]
    returns [(0, nil)] and the tree is as it was, pending overflow
    included. *)
Theorem Write_empty {H : HashAlg} (t : tree) (p : slice) :
  reachable t ->
  len p = 0 ->
  Write t p = Ret (t, (0, None)).
Proof.
  intros Ht Hp. destruct (reachable_wf t Ht) as [Hs Hov].
  assert (Hb : bytes_of p = [])
    by (unfold len in Hp; destruct (bytes_of p); [reflexivity | cbn in Hp; lia]).
  assert (Hre : exists x, reslice p 0 0 = Ret x /\ bytes_of x = [])
    by (destruct p as [[|y l]|]; try discriminate; cbn; eauto).
  unfold Write, fill_overflow. rewrite Hp, Hb. cbn [length].
  destruct (Z.ltb_spec 0 (len (overflow t))) as [Hpend|Hnone].
  - destruct (Z.gtb_spec (size t - len (overflow t)) 0) as [_|]; [|lia].
    destruct Hre as (x & -> & Hx). cbn [bind].
    assert (Happ : append (overflow t) x = overflow t).
    { unfold append. rewrite Hx.
      destruct (overflow t) as [ov|]; [|unfold len in Hpend; cbn in Hpend; lia].
      cbn [bytes_of]. now rewrite app_nil_r. }
    rewrite Happ, set_overflow_same.
    rewrite emit_loop_done by (rewrite Hp; lia).
    cbn [bind]. unfold keep_rest. rewrite Hp.
    destruct (Z.ltb_spec (size t - len (overflow t)) 0); [lia | reflexivity].
  - cbn [bind]. rewrite emit_loop_done by (rewrite Hp; lia).
    cbn [bind]. unfold keep_rest. rewrite Hp. reflexivity.
Qed.

Lemma Write_empty_witness :
  let t := mkTree [x01; x0a; x0b; x0c; x0d] 2 (Some [x10])
             (PairingRight (Some [x0e; x0f]) (First (Some [x73; x2f]))) [] in
  Write (H := fletcher16) t (Some []) = Ret (t, (0, None)).
Proof.
  apply (Write_empty (H := fletcher16)); [|reflexivity].
  apply (reach_Write (H := fletcher16)
           (mkTree [x07] 2 (Some []) AwaitFirst [])
           (Some [x0a; x0b; x0c; x0d; x0e; x0f; x10]) _ (7, None)).
  - apply (reach_New (H := fletcher16) [x07]). reflexivity.
  - reflexivity.
Defined.

(** X7.  [Sum] neither uses nor drops an incomplete record: after [Write]
    calls of which all but the last end on a leaf boundary, and [Sum], the
    overflow still holds the bytes written after the last complete leaf. *)
Theorem partial_record_survives_Sum {H : HashAlg} {HOk : HashOk H}
  (d : hash_state) (ls : list (list byte)) (tail : list byte)
  (segs : list slice) (b : slice) :
  ls <> [] ->
  Forall (fun l => Z.of_nat (length l) = hsize) ls ->
  Z.of_nat (length tail) < hsize ->
  Forall whole_leaves (removelast segs) ->
  flatten segs = concat ls ++ tail ->
  exists t' r,
    (t <- New d ;; t <- Writes t segs ;; Sum t b) = Ret (t', r) /\
    bytes_of (overflow t') = tail.
Proof.
  intros Hne Hls Htail _ Hsegs.
  assert (Hpos : 0 < hsize) by lia.
  destruct (holds_after_Writes Hpos d ls tail segs Hls Htail Hsegs)
    as (t & E & Hh & Hq & Ho & _).
  destruct (New d) as [t0| | |]; try discriminate.
  cbn [bind] in *. rewrite E. cbn [bind].
  unfold Sum.
  pose proof (finals_nil Hpos (leaves t) (map Some ls) Hh
                ltac:(destruct ls; [congruence | discriminate]) 0%nat (digest t))
    as Hf.
  pose proof (overflow_send_leaf t None) as Hov.
  unfold send_leaf, recv in *.
  destruct (processLevel (leaves t) None 0 (digest t)) as [[lv d'] f].
  cbn [snd sum overflow] in *. rewrite Hq, Hf. cbn [repeat app].
  do 2 eexists. split; [reflexivity|]. cbn [overflow]. assumption.
Qed.

Lemma partial_record_survives_Sum_witness :
  exists t' r,
    (t <- New (H := fletcher16) [x07] ;;
     t <- Writes (H := fletcher16) t
            [Some [x0a; x0b; x0c; x0d]; Some [x0e; x0f; x10]] ;;
     Sum (H := fletcher16) t None) = Ret (t', r) /\
    bytes_of (overflow t') = [x10].
Proof.
  apply (partial_record_survives_Sum (H := fletcher16) (HOk := fletcher16_ok)
           [x07] [[x0a; x0b]; [x0c; x0d]; [x0e; x0f]] [x10]);
    [discriminate | repeat constructor | cbn; lia | repeat constructor
    | reflexivity].
Defined.

(** ** Further properties of the life cycle *)

(** X8.  [Size] and [BlockSize] are the width of the underlying algorithm
    on every tree a program can hold: no call changes [size]. *)
Theorem Size_is_digest_width {H : HashAlg} (t : tree) :
  reachable t -> Size t = hsize /\ BlockSize t = hsize.
Proof.
  intros Ht. unfold Size, BlockSize. split; now apply reachable_size.
Qed.

Lemma Size_is_digest_width_witness :
  let t := mkTree [x01; x0a; x0b; x0c; x0d] 2 (Some [x10])
             (PairingRight (Some [x0e; x0f]) (First (Some [x73; x2f]))) [] in
  Size t = 2 /\ BlockSize t = 2.
Proof.
  apply (Size_is_digest_width (H := fletcher16)).
  apply (reach_Write (H := fletcher16)
           (mkTree [x07] 2 (Some []) AwaitFirst [])
           (Some [x0a; x0b; x0c; x0d; x0e; x0f; x10]) _ (7, None)).
  - apply (reach_New (H := fletcher16) [x07]). reflexivity.
  - reflexivity.
Defined.

(** X9.  [Reset] does not fail on a tree a program can hold, and it gives
    the tree that [New] gives for the same digest object: the overflow, the
    pipeline and whatever waits on [sum] are dropped. *)
Theorem Reset_is_New {H : HashAlg} (t : tree) :
  reachable t ->
  exists t0, Reset t = Ret t0 /\ New (digest t) = Ret t0.
Proof.
  intros Ht. pose proof (reachable_size t Ht) as Hs.
  destruct (reachable_wf t Ht) as [Hpos _].
  destruct (Reset_spec t) as [[_ E]|[Hneg _]]; [|lia].
  destruct (New_spec (digest t)) as [[_ EN]|[Hneg _]]; [|lia].
  eexists. split; [exact E|]. now rewrite EN, Hs.
Qed.

Lemma Reset_is_New_witness :
  let t := mkTree [x01; x0a; x0b; x0c; x0d] 2 (Some [x10])
             (PairingRight (Some [x0e; x0f]) (First (Some [x73; x2f]))) [] in
  exists t0, Reset t = Ret t0 /\ New (H := fletcher16) (digest t) = Ret t0.
Proof.
  apply (Reset_is_New (H := fletcher16)).
  apply (reach_Write (H := fletcher16)
           (mkTree [x07] 2 (Some []) AwaitFirst [])
           (Some [x0a; x0b; x0c; x0d; x0e; x0f; x10]) _ (7, None)).
  - apply (reach_New (H := fletcher16) [x07]). reflexivity.
  - reflexivity.
Defined.

(** X10.  With less than one complete leaf written since [New], [Sum]
    does not return, whatever the split of the bytes. *)
Theorem Sum_needs_a_leaf {H : HashAlg}
  (d : hash_state) (segs : list slice) (b : slice) :
  1 <= hsize ->
  Z.of_nat (length (flatten segs)) < hsize ->
  (t <- New d ;; root_of t segs b) = Blocks.
Proof. apply Sum_blocks_without_leaf. Qed.

Lemma Sum_needs_a_leaf_witness :
  (t <- New (H := fletcher16) [x07] ;;
   root_of (H := fletcher16) t [None; Some [x0a]; Some []] (Some [x09])) =
  Blocks.
Proof.
  apply (Sum_needs_a_leaf (H := fletcher16)); cbn; lia.
Defined.

(** ** The earlier [Write] *)

(** X11.  With no record pending, the [Write] of tree/tree.go does what
    the [Write] of thex.go does. *)
Theorem TreeGo_Write_without_overflow {H : HashAlg} (t : tree) (p : slice) :
  len (overflow t) = 0 ->
  TreeGo.Write t p = Write t p.
Proof.
  intros Hov. unfold TreeGo.Write, Write, fill_overflow.
  rewrite Hov. cbn [Z.ltb Z.compare bind]. reflexivity.
Qed.

Lemma TreeGo_Write_without_overflow_witness :
  let t := mkTree [x07] 2 (Some []) (First (Some [x0a; x0b])) [] in
  TreeGo.Write (H := fletcher16) t (Some [x0c; x0d; x0e]) =
  Write (H := fletcher16) t (Some [x0c; x0d; x0e]).
Proof.
  apply (TreeGo_Write_without_overflow (H := fletcher16)). reflexivity.
Defined.



(** ** The root and the test loop *)

Section RootWidth.
Context {H : HashAlg} {HOk : HashOk H}.

Lemma parent_wide (Hpos : 0 < hsize) (l r : slice) : digest_wide (parent l r).
Proof.
  split; [|now apply parent_not_nil].
  unfold parent, Hash, append, len. cbn [bytes_of].
  generalize (hsum_width ([x01] ++ bytes_of l ++ bytes_of r)).
  destruct (hsum _); cbn [bytes_of length app]; lia.
Qed.

Lemma pairs_wide (Hpos : 0 < hsize) (xs : list slice) :
  Forall digest_wide xs -> Forall digest_wide (pairs xs).
Proof.
  induction xs as [|a|a b rest IH] using pair_ind; intros Hxs; cbn [pairs];
    try assumption.
  inversion Hxs as [|? ? _ Hxs']; subst. inversion Hxs'; subst.
  constructor; [now apply parent_wide | now apply IH].
Qed.

Lemma reduce_wide (Hpos : 0 < hsize) (fuel : nat) :
  forall xs,
    (length xs <= fuel)%nat -> xs <> [] ->
    Forall digest_wide xs -> digest_wide (reduce fuel xs).
Proof.
  induction fuel as [|fuel IH]; intros xs Hlen Hne Hxs;
    destruct xs as [|a [|b rest]]; try congruence; cbn [length] in *;
    try lia; try (now inversion Hxs).
  change (reduce (S fuel) (a :: b :: rest))
    with (reduce fuel (pairs (a :: b :: rest))).
  pose proof (pairs_length (a :: b :: rest)) as Hp. cbn [length] in Hp.
  apply IH; [lia | discriminate | now apply pairs_wide].
Qed.

End RootWidth.

(** X13.  The root is a digest: for one or more complete leaves, [Sum]
    returns a non-nil value of the width of the underlying algorithm. *)
Theorem root_has_digest_width {H : HashAlg} {HOk : HashOk H}
  (d : hash_state) (ls : list (list byte)) (tail : list byte)
  (segs : list slice) (b : slice) :
  ls <> [] ->
  Forall (fun l => Z.of_nat (length l) = hsize) ls ->
  Z.of_nat (length tail) < hsize ->
  flatten segs = concat ls ++ tail ->
  exists r,
    (t <- New d ;; root_of t segs b) = Ret r /\
    len r = hsize /\ is_nil r = false.
Proof.
  intros Hne Hls Htail Hsegs.
  assert (Hpos : 0 < hsize) by lia.
  destruct (holds_after_Writes Hpos d ls tail segs Hls Htail Hsegs)
    as (t & E & Hh & Hq & _).
  destruct (New d) as [t0| | |]; try discriminate.
  cbn [bind] in *. unfold root_of. rewrite E. cbn [bind].
  unfold Sum, send_leaf, recv.
  pose proof (finals_nil Hpos (leaves t) (map Some ls) Hh
                ltac:(destruct ls; [congruence | discriminate]) 0%nat (digest t))
    as Hf.
  destruct (processLevel (leaves t) None 0 (digest t)) as [[lv d'] f].
  cbn [snd sum] in *. rewrite Hq, Hf. cbn [repeat app omap bind snd].
  eexists. split; [reflexivity|].
  apply (reduce_wide Hpos); [lia | destruct ls; [congruence | discriminate] |].
  clear -Hls. induction Hls as [|l ls Hl _ IH]; cbn [map]; constructor;
    [|assumption].
  split; [unfold len; cbn [bytes_of]; assumption | reflexivity].
Qed.

Lemma root_has_digest_width_witness :
  exists r,
    (t <- New (H := fletcher16) [x07] ;;
     root_of (H := fletcher16) t
       [Some [x0a; x0b; x0c]; Some [x0d; x0e; x0f; x10]] None) = Ret r /\
    len r = 2 /\ is_nil r = false.
Proof.
  apply (root_has_digest_width (H := fletcher16) (HOk := fletcher16_ok)
           [x07] [[x0a; x0b]; [x0c; x0d]; [x0e; x0f]] [x10]);
    [discriminate | repeat constructor | cbn; lia | reflexivity].
Defined.

Lemma golden_round {H : HashAlg} (d : hash_state) (L : list byte) :
  1 <= hsize ->
  Z.of_nat (length L) = hsize ->
  let t0 := mkTree d hsize (Some []) AwaitFirst [] in
  ('(t, _) <- Write t0 (Some L) ;; '(t, s) <- Sum t None ;;
   t <- Reset t ;; Ret (t, s)) = Ret (t0, Some L).
Proof.
  intros Hs HL t0. subst t0.
  destruct (Write_spec (mkTree d hsize (Some []) AwaitFirst []) (Some L))
    as (o & _ & ->); [split; cbn; lia|].
  cbn [bind size overflow bytes_of].
  pose proof (frame_concat (Z.to_nat hsize) [L] ltac:(lia)
                ltac:(repeat constructor; lia)) as EL.
  cbn [concat] in EL. rewrite app_nil_r in EL. rewrite EL.
  cbn [fst send_all fold_left].
  unfold Sum. rewrite !send_leaf_set_overflow.
  unfold send_leaf. cbn [leaves digest size overflow sum].
  rewrite recv_AwaitFirst. cbn [set_overflow leaves digest size overflow sum app].
  rewrite recv_First_nil.
  cbn [set_overflow leaves digest size overflow sum app bind].
  unfold Reset, make0. cbn [size digest].
  destruct (Z.leb_spec 0 (hsize - 1)); [reflexivity | lia].
Qed.

(** X14.  The loop of TestGolden: [Write(leaf)], [Sum(nil)], [Reset()],
    any number of times on one tree, yields the leaf itself every time. *)
Theorem golden_rounds_return_leaf {H : HashAlg}
  (d : hash_state) (L : list byte) (n : nat) :
  1 <= hsize ->
  Z.of_nat (length L) = hsize ->
  (t <- New d ;; omap snd (golden_rounds n t (Some L))) =
  Ret (repeat (Some L) n).
Proof.
  intros Hs HL.
  destruct (New_spec d) as [[_ E]|[Hneg _]]; [rewrite E | lia].
  cbn [bind].
  set (t0 := mkTree d hsize (Some []) AwaitFirst []).
  assert (Hn : golden_rounds n t0 (Some L) = Ret (t0, repeat (Some L) n)).
  { induction n as [|n IH]; [reflexivity|].
    cbn [golden_rounds repeat].
    pose proof (golden_round d L Hs HL) as Hr. cbn zeta in Hr. fold t0 in Hr.
    destruct (Write t0 (Some L)) as [[t1 r1]| | |]; try discriminate.
    cbn [bind] in *.
    destruct (Sum t1 None) as [[t2 s]| | |]; try discriminate.
    cbn [bind] in *.
    destruct (Reset t2) as [t3| | |]; try discriminate.
    cbn [bind] in *. injection Hr as -> ->.
    rewrite IH. reflexivity. }
  rewrite Hn. reflexivity.
Qed.

Lemma golden_rounds_return_leaf_witness :
  (t <- New (H := fletcher16) [x07] ;;
   omap snd (golden_rounds (H := fletcher16) 4 t (Some [x0a; x0b]))) =
  Ret (repeat (Some [x0a; x0b]) 4).
Proof.
  apply (golden_rounds_return_leaf (H := fletcher16) [x07] [x0a; x0b] 4);
    [cbn; lia | reflexivity].
Defined.
